(** * CacheManager: a TTL cache with LRU eviction and hit/miss statistics

    Shallow embedding of the cache manager (package main: [CacheValue],
    [CacheManager], [CacheStats] and the methods [lru], [Set],
    [SetWithTTL], [Get], [Delete], [Clear], [ClearByTTL], [GetStats]).

    Modelling choices, all taken from the Go source:
    - [map[string]*CacheValue] is a [gmap string CacheValue]; no method
      mutates a stored [CacheValue] in place, so the pointers carry no
      aliasing that a value model would lose;
    - [int64] counters and [time.Duration] are [Z] with the two's-complement
      wrap-around written out ([wrap64]); [atomic.AddInt64] is [AddInt64];
    - a [time.Time] obtained from [time.Now()] is compared and subtracted
      through its monotonic reading, an [int64] number of nanoseconds:
      [Time] is that reading, [Compare] and [Sub] follow package [time];
    - every call of [time.Now()] is an explicit argument (the clock reading
      it returned), and every [for k, v := range cm.Cache] takes the order
      in which the runtime produced the entries as an explicit argument
      (Go leaves it unspecified): a list of pairs that is a permutation of
      the map's contents, see [iterates];
    - the mutex is not modelled: the embedding is of sequential executions. *)

From stdpp Require Import gmap strings list fin_maps.
From Stdlib Require Import ZArith Lia.

Local Open Scope Z_scope.

(** ** Machine integers *)

Definition min_int64 : Z := - 2 ^ 63.
Definition max_int64 : Z := 2 ^ 63 - 1.

(** Two's-complement reduction of an integer to 64 bits. *)
Definition wrap64 (z : Z) : Z := (z + 2 ^ 63) mod 2 ^ 64 - 2 ^ 63.

Definition in_int64 (z : Z) : Prop := min_int64 <= z <= max_int64.

(** [atomic.AddInt64(&x, delta)]: the new value of [x]. *)
Definition AddInt64 (x delta : Z) : Z := wrap64 (x + delta).

(** ** Package time, monotonic part *)

Abbreviation Time := Z.
Abbreviation Duration := Z.

Definition minDuration : Duration := min_int64.
Definition maxDuration : Duration := max_int64.

(** [t.Compare(u)] on two readings of the monotonic clock. *)
Definition Compare (t u : Time) : Z :=
  if t <? u then -1 else if u <? t then 1 else 0.

(** [t.Sub(u)] on two readings of the monotonic clock ([subMono]): the
    difference, saturated to the range of [Duration]. *)
Definition Sub (t u : Time) : Duration :=
  let d := wrap64 (t - u) in
  if (d <? 0) && (u <? t) then maxDuration
  else if (0 <? d) && (t <? u) then minDuration
  else d.

Section Cache.

(** The dynamic values an [interface{}] can hold; [None] is the nil
    interface. *)
Context {V : Type}.

Definition any : Type := option V.
Definition nil : any := None.

(** ** Data *)

Record CacheValue : Type := mkCacheValue {
  Value : any;
  TTL : Duration;
  LastAccess : Time
}.

Record CacheStats : Type := mkCacheStats {
  Hits : Z;
  Misses : Z;
  Evictions : Z;
  Size : Z
}.

Record CacheManager : Type := mkCacheManager {
  Cache : gmap string CacheValue;
  Capacity : Z;
  DefaultTTL : Duration;
  CleanupTick : Duration;
  Stats : CacheStats
}.

(** Assignments to the fields [cm.Cache] and [cm.Stats]. *)
Definition with_Cache (m : gmap string CacheValue) (cm : CacheManager)
    : CacheManager :=
  mkCacheManager m (Capacity cm) (DefaultTTL cm) (CleanupTick cm) (Stats cm).

Definition with_Stats (s : CacheStats) (cm : CacheManager) : CacheManager :=
  mkCacheManager (Cache cm) (Capacity cm) (DefaultTTL cm) (CleanupTick cm) s.

(** [atomic.AddInt64(&cm.Stats.Hits, 1)] *)
Definition recordHit (s : CacheStats) : CacheStats :=
  mkCacheStats (AddInt64 (Hits s) 1) (Misses s) (Evictions s) (Size s).

(** [atomic.AddInt64(&cm.Stats.Misses, 1)] *)
Definition recordMiss (s : CacheStats) : CacheStats :=
  mkCacheStats (Hits s) (AddInt64 (Misses s) 1) (Evictions s) (Size s).

(** [atomic.AddInt64(&cm.Stats.Evictions, 1)] *)
Definition recordEviction (s : CacheStats) : CacheStats :=
  mkCacheStats (Hits s) (Misses s) (AddInt64 (Evictions s) 1) (Size s).

(** [len(cm.Cache)] *)
Definition len (m : gmap string CacheValue) : Z := Z.of_nat (size m).

(** An order in which [range] may produce the entries of [m]. *)
Definition iterates (m : gmap string CacheValue)
    (order : list (string * CacheValue)) : Prop :=
  order ≡ₚ map_to_list m.

(** ** Operations *)

Definition NewCacheManager (maxSize : Z) (defaultTTL cleanupTick : Duration)
    : CacheManager :=
  mkCacheManager ∅ maxSize defaultTTL cleanupTick (mkCacheStats 0 0 0 0).

(** The loop of [lru]: the running [oldestTime] and [oldestKey]. *)
Fixpoint lru_scan (order : list (string * CacheValue))
    (oldestTime : Time) (oldestKey : string) : Time * string :=
  match order with
  | [] => (oldestTime, oldestKey)
  | (k, v) :: rest =>
      if Compare (LastAccess v) oldestTime =? -1
      then lru_scan rest (LastAccess v) k
      else lru_scan rest oldestTime oldestKey
  end.

(** [lru]: [now] is the reading of [time.Now()], the initial [oldestKey]
    is the zero string. *)
Definition lru (now : Time) (order : list (string * CacheValue))
    (cm : CacheManager) : CacheManager :=
  let oldestKey := (lru_scan order now "").2 in
  with_Stats (recordEviction (Stats cm))
    (with_Cache (delete oldestKey (Cache cm)) cm).

(** [!ok && len(cm.Cache) == cm.Capacity], the test of [Set] and
    [SetWithTTL] for calling [lru]. *)
Definition evicts (key : string) (cm : CacheManager) : bool :=
  negb (bool_decide (is_Some (Cache cm !! key)))
  && (len (Cache cm) =? Capacity cm).

(** The part [Set] and [SetWithTTL] share: evict when the key is new and
    the map holds [Capacity] entries, then store the entry. [t_lru] is the
    clock reading inside [lru], [now] the one stored as [LastAccess]. *)
Definition store (key : string) (value : any) (ttl : Duration)
    (t_lru now : Time) (order : list (string * CacheValue))
    (cm : CacheManager) : CacheManager :=
  let cm1 := if evicts key cm then lru t_lru order cm else cm in
  with_Cache (<[key := mkCacheValue value ttl now]> (Cache cm1)) cm1.

Definition Set_ (key : string) (value : any)
    (t_lru now : Time) (order : list (string * CacheValue))
    (cm : CacheManager) : CacheManager :=
  store key value (DefaultTTL cm) t_lru now order cm.

Definition SetWithTTL (key : string) (value : any) (ttl : Duration)
    (t_lru now : Time) (order : list (string * CacheValue))
    (cm : CacheManager) : CacheManager :=
  store key value ttl t_lru now order cm.

(** [now.Sub(v.LastAccess) > v.TTL], also [time.Since(v.LastAccess) > v.TTL] *)
Definition expired (now : Time) (v : CacheValue) : bool :=
  TTL v <? Sub now (LastAccess v).

(** [Get]: the returned pair and the manager afterwards. *)
Definition Get (key : string) (now : Time) (cm : CacheManager)
    : (any * bool) * CacheManager :=
  match Cache cm !! key with
  | Some v =>
      if expired now v
      then ((nil, false), with_Stats (recordMiss (Stats cm)) cm)
      else ((Value v, true), with_Stats (recordHit (Stats cm)) cm)
  | None => ((nil, false), with_Stats (recordMiss (Stats cm)) cm)
  end.

Definition Delete (key : string) (cm : CacheManager) : CacheManager :=
  match Cache cm !! key with
  | Some _ => with_Cache (delete key (Cache cm)) cm
  | None => cm
  end.

Definition Clear (cm : CacheManager) : CacheManager := with_Cache ∅ cm.

(** The loop of [ClearByTTL] over the entries in the order produced. *)
Fixpoint ClearByTTL_loop (now : Time) (order : list (string * CacheValue))
    (cm : CacheManager) : CacheManager :=
  match order with
  | [] => cm
  | (k, v) :: rest =>
      if expired now v
      then ClearByTTL_loop now rest
             (Delete k (with_Stats (recordEviction (Stats cm)) cm))
      else ClearByTTL_loop now rest cm
  end.

Definition ClearByTTL (now : Time) (order : list (string * CacheValue))
    (cm : CacheManager) : CacheManager :=
  ClearByTTL_loop now order cm.

(** [GetStats]: the returned copy and the manager afterwards. *)
Definition GetStats (cm : CacheManager) : CacheStats * CacheManager :=
  let s := mkCacheStats (Hits (Stats cm)) (Misses (Stats cm))
             (Evictions (Stats cm)) 1 in
  (s, with_Stats s cm).

(** A miss: the key is absent or its entry has expired. *)
Definition misses (key : string) (now : Time) (cm : CacheManager) : Prop :=
  Cache cm !! key = None ∨
  ∃ v, Cache cm !! key = Some v ∧ TTL v < Sub now (LastAccess v).

(** The entries that a sweep at [now] removes, and those it keeps. *)
Definition stale (now : Time) (kv : string * CacheValue) : Prop :=
  expired now kv.2 = true.

Definition fresh (now : Time) (kv : string * CacheValue) : Prop :=
  expired now kv.2 = false.

#[global] Instance stale_dec now kv : Decision (stale now kv).
Proof. unfold stale. apply _. Defined.

#[global] Instance fresh_dec now kv : Decision (fresh now kv).
Proof. unfold fresh. apply _. Defined.

(** ** Executions

    One call of a method of the manager, with the clock readings and the
    iteration order that the call observed. *)
Inductive Op : Type :=
  | OpSet (key : string) (value : any) (t_lru now : Time)
      (order : list (string * CacheValue))
  | OpSetWithTTL (key : string) (value : any) (ttl : Duration)
      (t_lru now : Time) (order : list (string * CacheValue))
  | OpGet (key : string) (now : Time)
  | OpDelete (key : string)
  | OpClear
  | OpClearByTTL (now : Time) (order : list (string * CacheValue))
  | OpGetStats.

Definition exec (op : Op) (cm : CacheManager) : CacheManager :=
  match op with
  | OpSet key value t_lru now order => Set_ key value t_lru now order cm
  | OpSetWithTTL key value ttl t_lru now order =>
      SetWithTTL key value ttl t_lru now order cm
  | OpGet key now => (Get key now cm).2
  | OpDelete key => Delete key cm
  | OpClear => Clear cm
  | OpClearByTTL now order => ClearByTTL now order cm
  | OpGetStats => (GetStats cm).2
  end.

Fixpoint run (ops : list Op) (cm : CacheManager) : CacheManager :=
  match ops with
  | [] => cm
  | op :: rest => run rest (exec op cm)
  end.

(** The clock readings of a call on [cm], in the order [time.Now()]
    returned them; [Set] and [SetWithTTL] read the clock in [lru] only when
    they call it. *)
Definition readings (cm : CacheManager) (op : Op) : list Time :=
  match op with
  | OpSet key _ t_lru now _ | OpSetWithTTL key _ _ t_lru now _ =>
      if evicts key cm then [t_lru; now] else [now]
  | OpGet _ now => [now]
  | OpClearByTTL now _ => [now]
  | OpDelete _ | OpClear | OpGetStats => []
  end.

Fixpoint clock (cm : CacheManager) (ops : list Op) : list Time :=
  match ops with
  | [] => []
  | op :: rest => readings cm op ++ clock (exec op cm) rest
  end.

(** A monotonic clock: readings never go back; two readings may coincide. *)
Fixpoint nondecreasing_from (last : Time) (l : list Time) : bool :=
  match l with
  | [] => true
  | t :: rest => (last <=? t) && nondecreasing_from t rest
  end.

(** A clock fine enough to tell any two readings apart. *)
Fixpoint increasing_from (last : Time) (l : list Time) : bool :=
  match l with
  | [] => true
  | t :: rest => (last <? t) && increasing_from t rest
  end.

(** The iteration order a call observed is one of the map it ran on;
    [Set] and [SetWithTTL] iterate only when they call [lru]. *)
Definition op_ok (cm : CacheManager) (op : Op) : Prop :=
  match op with
  | OpSet key _ _ _ order | OpSetWithTTL key _ _ _ _ order =>
      evicts key cm = true → iterates (Cache cm) order
  | OpClearByTTL _ order => iterates (Cache cm) order
  | OpGet _ _ | OpDelete _ | OpClear | OpGetStats => True
  end.

Fixpoint trace_ok (cm : CacheManager) (ops : list Op) : Prop :=
  match ops with
  | [] => True
  | op :: rest => op_ok cm op ∧ trace_ok (exec op cm) rest
  end.

(** The keys that a sequence of calls stores. *)
Definition stored_key (op : Op) : list string :=
  match op with
  | OpSet key _ _ _ _ | OpSetWithTTL key _ _ _ _ _ => [key]
  | _ => []
  end.

Definition is_Set (op : Op) : bool :=
  match op with OpSet _ _ _ _ _ => true | _ => false end.

(** ** Invariants of executions *)

(** After at most [n] calls: each counter is within the number of calls
    that can have moved it, and every entry still stored has been paid for
    by a call. *)
Definition counted (n : Z) (cm : CacheManager) : Prop :=
  0 ≤ Hits (Stats cm) ≤ n ∧ 0 ≤ Misses (Stats cm) ≤ n ∧
  0 ≤ Evictions (Stats cm) ∧
  Evictions (Stats cm) + len (Cache cm) ≤ 2 * n.

(** No stored entry was touched after the reading [last]. *)
Definition touched_by (last : Time) (cm : CacheManager) : Prop :=
  ∀ k v, Cache cm !! k = Some v → LastAccess v ≤ last.

(** The latest reading of a clock that showed [last] before [l]. *)
Definition latest (last : Time) (l : list Time) : Time :=
  foldl (λ _ t, t) last l.

(** A manager of positive capacity that holds no more than it, none of
    whose entries was touched after the reading [last]. *)
Definition settled (last : Time) (cm : CacheManager) : Prop :=
  0 < Capacity cm ∧ len (Cache cm) ≤ Capacity cm ∧ touched_by last cm.

(** Below capacity nothing was evicted: the map holds exactly [keys]. *)
Definition filled (keys : gset string) (cm : CacheManager) : Prop :=
  len (Cache cm) < Capacity cm → dom (Cache cm) = keys.

(** The set of keys that a sequence of calls stores. *)
Definition stored (ops : list Op) : gset string :=
  list_to_set (concat (map stored_key ops)).

End Cache.

Arguments any V : clear implicits.
Arguments CacheValue V : clear implicits.
Arguments CacheStats : clear implicits.
Arguments CacheManager V : clear implicits.
Arguments Op V : clear implicits.

(** ** Scenarios

    Concrete executions, with integers as the stored values. *)
Module Scenario.

(** A manager for two entries, default TTL 10. *)
Definition two : CacheManager Z := NewCacheManager 2 10 1.

Definition entry_a : CacheValue Z := mkCacheValue (Some 1) 10 1.
Definition entry_b : CacheValue Z := mkCacheValue (Some 2) 10 2.

(** [Set("a", 1)] at reading 1, then [Set("b", 2)] at reading 2. *)
Definition two_a : CacheManager Z := Set_ "a" (Some 1) 1 1 [] two.
Definition two_ab : CacheManager Z :=
  Set_ "b" (Some 2) 2 2 [("a", entry_a)] two_a.

(** [Get("a")] at reading 5 and the manager it leaves. *)
Definition read_a : (any Z * bool) * CacheManager Z := Get "a" 5 two_a.

(** [Get("a")] at reading 3 on the full manager, then [Set("c", 3)] with
    readings 4 and 5, for each order in which [range] can produce the two
    entries. *)
Definition two_ab_read : CacheManager Z := (Get "a" 3 two_ab).2.
Definition order_ab : list (string * CacheValue Z) :=
  [("a", entry_a); ("b", entry_b)].
Definition order_ba : list (string * CacheValue Z) :=
  [("b", entry_b); ("a", entry_a)].
Definition two_then_c (order : list (string * CacheValue Z)) : CacheManager Z :=
  Set_ "c" (Some 3) 4 5 order two_ab_read.

(** A manager for one entry, and two [Set] calls during which the clock
    shows the same reading 7. *)
Definition one : CacheManager Z := NewCacheManager 1 10 1.
Definition entry_a7 : CacheValue Z := mkCacheValue (Some 1) 10 7.
Definition same_instant : list (Op Z) :=
  [OpSet "a" (Some 1) 7 7 []; OpSet "b" (Some 2) 7 7 [("a", entry_a7)]].
Definition one_a : CacheManager Z := run (take 1 same_instant) one.
Definition one_ab : CacheManager Z := run same_instant one.

(** An entry stored with TTL 10 at reading 0. *)
Definition short_lived : CacheManager Z :=
  SetWithTTL "a" (Some 7) 10 0 0 [] two.

(** Two entries, TTL 10 touched at 1 and TTL 3 touched at 2. *)
Definition mixed : CacheManager Z :=
  SetWithTTL "b" (Some 2) 3 2 2 [("a", entry_a)] two_a.

(** Three [Set] calls on distinct keys while the clock ticks. *)
Definition ticking : list (Op Z) :=
  [OpSet "a" (Some 1) 1 1 []; OpSet "b" (Some 2) 2 2 [("a", entry_a)];
   OpSet "c" (Some 3) 3 4 order_ab].

(** A [Set], a [Get] and a statistics read. *)
Definition short_trace : list (Op Z) :=
  [OpSet "a" (Some 1) 1 1 []; OpGet "a" 2; OpGetStats].

End Scenario.

(** ** The cleanup goroutine and derived notions *)

(** [time.NewTicker(d)]: it panics ([None]) unless [d] is positive. *)
Definition NewTicker (d : Duration) : option Duration :=
  if d <=? 0 then None else Some d.

(** [n] times [atomic.AddInt64(&x, 1)]. *)
Definition bump (n : nat) (x : Z) : Z := Nat.iter n (λ e, AddInt64 e 1) x.

Section Cleanup.

Context {V : Type}.

(** What the [select] of the goroutine of [StartCleanup] receives: a tick
    of the ticker, with the clock reading and the iteration order of the
    sweep it starts, or the cancellation of the context. *)
Inductive Signal : Type :=
  | Tick (now : Time) (order : list (string * CacheValue V))
  | Done.

(** The [for { select { ... } }] loop: [Done] returns, a tick sweeps. The
    empty list is a goroutine still waiting. *)
Fixpoint cleanup_loop (signals : list Signal) (cm : CacheManager V)
    : CacheManager V :=
  match signals with
  | [] => cm
  | Done :: _ => cm
  | Tick now order :: rest => cleanup_loop rest (ClearByTTL now order cm)
  end.

(** [StartCleanup]: the ticker is created first; the result is the manager
    as the goroutine leaves it after [signals], with no other call in
    between. *)
Definition StartCleanup (signals : list Signal) (cm : CacheManager V)
    : option (CacheManager V) :=
  match NewTicker (CleanupTick cm) with
  | None => None
  | Some _ => Some (cleanup_loop signals cm)
  end.

(** Every sweep of a run of ticks iterates the map it finds. *)
Fixpoint ticks_ok (cm : CacheManager V)
    (ticks : list (Time * list (string * CacheValue V))) : Prop :=
  match ticks with
  | [] => True
  | (now, order) :: rest =>
      iterates (Cache cm) order ∧ ticks_ok (ClearByTTL now order cm) rest
  end.

Definition ticking_signals (ticks : list (Time * list (string * CacheValue V)))
    : list Signal :=
  map (λ tick, Tick tick.1 tick.2) ticks.

(** A sweep at [now] without the iteration: the unexpired entries stay and
    [Evictions] is bumped once per expired entry. *)
Definition swept (now : Time) (cm : CacheManager V) : CacheManager V :=
  mkCacheManager (filter (fresh now) (Cache cm)) (Capacity cm) (DefaultTTL cm)
    (CleanupTick cm)
    (mkCacheStats (Hits (Stats cm)) (Misses (Stats cm))
       (bump (size (filter (stale now) (Cache cm))) (Evictions (Stats cm)))
       (Size (Stats cm))).

(** Every [LastAccess] stored is an [int64] reading of the clock. *)
Definition timed (cm : CacheManager V) : Prop :=
  ∀ k v, Cache cm !! k = Some v → in_int64 (LastAccess v).

Definition is_store (op : Op V) : bool :=
  match op with
  | OpSet _ _ _ _ _ | OpSetWithTTL _ _ _ _ _ _ => true
  | _ => false
  end.

Definition is_Get (op : Op V) : bool :=
  match op with OpGet _ _ => true | _ => false end.

(** The number of [Get] calls of an execution. *)
Definition gets (ops : list (Op V)) : Z :=
  Z.of_nat (length (filter (λ op, is_Get op = true) ops)).

End Cleanup.

Arguments Signal V : clear implicits.

(** ** The rate limiter

    [RateLimiter] of the token-bucket program. [int] is taken as 64 bits
    wide. [UpdateTokensNum] computes the tokens to add in floating point,
    [int(elapsed.Seconds() * float64(rl.Rate))]; the value it obtained is an
    argument of the model, like a clock reading. *)
Module RateLimiter.

Record RateLimiter : Type := mkRateLimiter {
  Rate : Z;
  Capacity : Z;
  CurrentTokensNum : Z;
  LastUpdate : Time
}.

Definition Second : Duration := 1000000000.

Definition NewRateLimiter (rate capacity : Z) (now : Time) : RateLimiter :=
  mkRateLimiter rate capacity capacity now.

(** [tokensToAdd] is the value of the floating-point expression, [now] the
    reading of the final [time.Now()]. *)
Definition UpdateTokensNum (tokensToAdd : Z) (now : Time) (rl : RateLimiter)
    : RateLimiter :=
  mkRateLimiter (Rate rl) (Capacity rl)
    (Z.min (wrap64 (CurrentTokensNum rl + tokensToAdd)) (Capacity rl)) now.

Definition Allow (tokensToAdd : Z) (now : Time) (rl : RateLimiter)
    : bool * RateLimiter :=
  let rl1 := UpdateTokensNum tokensToAdd now rl in
  if 1 <=? CurrentTokensNum rl1
  then (true, mkRateLimiter (Rate rl1) (Capacity rl1)
                (wrap64 (CurrentTokensNum rl1 - 1)) (LastUpdate rl1))
  else (false, rl1).

Definition Reset (rl : RateLimiter) : RateLimiter :=
  mkRateLimiter (Rate rl) (Capacity rl) (Capacity rl) (LastUpdate rl).

(** Consecutive calls of [Allow], each with the refill it computed and the
    clock reading it stored. *)
Fixpoint Allows (calls : list (Z * Time)) (rl : RateLimiter)
    : list bool * RateLimiter :=
  match calls with
  | [] => ([], rl)
  | (tokensToAdd, now) :: rest =>
      let r := Allow tokensToAdd now rl in
      let rs := Allows rest r.2 in
      (r.1 :: rs.1, rs.2)
  end.

(** Integer division of [int]: a run-time panic ([None]) on a zero
    divisor, truncation toward zero otherwise. *)
Definition div_int (a b : Z) : option Z :=
  if b =? 0 then None else Some (wrap64 (Z.quot a b)).

(** The start of [Wait]: [timeToWait := time.Duration(1.0/rl.Rate) *
    time.Second], where the constant [1.0] takes the type [int] of
    [rl.Rate], and [time.NewTicker(timeToWait)]. [None] is a panic. *)
Definition Wait_ticker (rl : RateLimiter) : option Duration :=
  match div_int 1 (Rate rl) with
  | None => None
  | Some q => NewTicker (wrap64 (q * Second))
  end.

(** The start of [WaitN]: [time.Duration(n/rl.Rate) * time.Second] and
    the ticker. *)
Definition WaitN_ticker (n : Z) (rl : RateLimiter) : option Duration :=
  match div_int n (Rate rl) with
  | None => None
  | Some q => NewTicker (wrap64 (q * Second))
  end.

End RateLimiter.

#[global] Instance in_int64_dec (z : Z) : Decision (in_int64 z).
Proof. unfold in_int64. apply _. Defined.

(** ** More scenarios *)
Module Instances.

Import Scenario.

(** A manager that holds nothing, of capacity 0. *)
Definition none : CacheManager Z := NewCacheManager 0 10 1.

(** The two orders in which [range] can produce the entries of [mixed]. *)
Definition mixed_order : list (string * CacheValue Z) :=
  map_to_list (Cache mixed).
Definition mixed_reversed : list (string * CacheValue Z) :=
  reverse (map_to_list (Cache mixed)).

(** A tick at reading 5, a tick at reading 8, the cancellation, and a tick
    that arrives too late. *)
Definition early_ticks : list (Time * list (string * CacheValue Z)) :=
  [(5, mixed_order)].
Definition last_order : list (string * CacheValue Z) :=
  map_to_list (Cache (ClearByTTL 5 mixed_order mixed)).
Definition late : list (Signal Z) := [Tick 100 []].

(** Two stores that fit, and a store into the overfull manager. *)
Definition two_stores : list (Op Z) := take 2 ticking.
Definition third_store : list (Op Z) := [OpSet "c" (Some 3) 9 9 []].

(** Two entries touched at the same reading. *)
Definition tied_a : CacheValue Z := mkCacheValue (Some 1) 10 3.
Definition tied_b : CacheValue Z := mkCacheValue (Some 2) 10 3.
Definition tied : CacheManager Z :=
  mkCacheManager {[ "a" := tied_a; "b" := tied_b ]} 2 10 1
    (mkCacheStats 0 0 0 0).

(** A limiter for bursts of 5, and six calls that add nothing. *)
Definition limiter : RateLimiter.RateLimiter :=
  RateLimiter.NewRateLimiter 5 5 0.
Definition five_more : list (Z * Time) := repeat (0, 0) 5.

End Instances.

(** * Facts about the machine integers and the clock *)

Lemma wrap64_id (z : Z) : in_int64 z → wrap64 z = z.
Proof.
  unfold in_int64, min_int64, max_int64, wrap64. intros Hz.
  rewrite Z.mod_small; lia.
Qed.

Lemma wrap64_range (z : Z) : in_int64 (wrap64 z).
Proof.
  unfold in_int64, min_int64, max_int64, wrap64.
  pose proof (Z.mod_pos_bound (z + 2 ^ 63) (2 ^ 64)). lia.
Qed.

Lemma AddInt64_exact (x d : Z) : in_int64 (x + d) → AddInt64 x d = x + d.
Proof. apply wrap64_id. Qed.

Lemma Compare_lt (t u : Time) : (Compare t u =? -1) = (t <? u).
Proof.
  unfold Compare. destruct (Z.ltb_spec t u) as [Hlt | Hge]; [done |].
  by destruct (u <? t).
Qed.

(** Away from the ends of the [Duration] range [Sub] is the difference. *)
Lemma Sub_exact (t u : Time) : in_int64 (t - u) → Sub t u = t - u.
Proof.
  intros Hr. unfold Sub. rewrite (wrap64_id _ Hr).
  destruct (Z.ltb_spec (t - u) 0), (Z.ltb_spec u t),
    (Z.ltb_spec 0 (t - u)), (Z.ltb_spec t u); simpl; lia.
Qed.

Section CacheFacts.

Context {V : Type}.
Implicit Types (cm : CacheManager V) (m : gmap string (CacheValue V)).
Implicit Types (v : CacheValue V) (order : list (string * CacheValue V)).
Implicit Types (op : Op V) (ops : list (Op V)).

(** ** Iteration orders *)

Lemma iterates_elem m order k v :
  iterates m order → (k, v) ∈ order ↔ m !! k = Some v.
Proof.
  unfold iterates. intros Hp. rewrite Hp. apply elem_of_map_to_list.
Qed.

Lemma iterates_map_to_list m : iterates m (map_to_list m).
Proof. by unfold iterates. Qed.

Lemma iterates_length m order : iterates m order → Z.of_nat (length order) = len m.
Proof.
  unfold iterates, len. intros Hp. by rewrite Hp, length_map_to_list.
Qed.

(** ** The scan of [lru] *)

(** The scan ends either where it started, when no entry produced is
    strictly older than the starting time, or on an entry that is strictly
    older than the starting time and as old as any entry produced. *)
Lemma lru_scan_spec order (t0 : Time) (k0 : string) :
  let r := lru_scan order t0 k0 in
  Forall (λ kv, r.1 ≤ LastAccess kv.2) order ∧
  ((r = (t0, k0) ∧ Forall (λ kv, t0 ≤ LastAccess kv.2) order) ∨
   (r.1 < t0 ∧ ∃ v, (r.2, v) ∈ order ∧ LastAccess v = r.1)).
Proof.
  revert t0 k0. induction order as [| [k v] rest IH]; intros t0 k0; simpl.
  - split; [constructor | left; split; [done | constructor]].
  - rewrite Compare_lt. destruct (Z.ltb_spec (LastAccess v) t0) as [Hlt | Hge].
    + destruct (IH (LastAccess v) k) as [Hall Hcase]. split.
      * constructor; [| done]. simpl.
        destruct Hcase as [[-> _] | [Hlt' _]]; simpl; lia.
      * right. destruct Hcase as [[-> _] | [Hlt' (v' & Hin & Hv')]]; simpl.
        -- split; [done |]. exists v. split; [by left | done].
        -- split; [lia |]. exists v'. split; [by right | done].
    + destruct (IH t0 k0) as [Hall Hcase]. split.
      * constructor; [| done]. simpl.
        destruct Hcase as [[-> _] | [Hlt' _]]; simpl; lia.
      * destruct Hcase as [[-> Hrest] | [Hlt' (v' & Hin & Hv')]].
        -- left. split; [done |]. by constructor.
        -- right. split; [done |]. exists v'. split; [by right | done].
Qed.

(** ** Frame facts of the operations *)

Lemma lru_Cache (now : Time) order cm :
  Cache (lru now order cm) = delete (lru_scan order now "").2 (Cache cm).
Proof. done. Qed.

Lemma lru_Stats (now : Time) order cm :
  Stats (lru now order cm) = recordEviction (Stats cm).
Proof. done. Qed.

Lemma lru_Capacity (now : Time) order cm :
  Capacity (lru now order cm) = Capacity cm.
Proof. done. Qed.

(** With an entry strictly older than the reading, [lru] deletes an entry
    of the map whose [LastAccess] is smallest. *)
Lemma lru_oldest (now : Time) order cm :
  iterates (Cache cm) order →
  (∃ k v, Cache cm !! k = Some v ∧ LastAccess v < now) →
  ∃ k v, Cache cm !! k = Some v ∧
    (∀ k' v', Cache cm !! k' = Some v' → LastAccess v ≤ LastAccess v') ∧
    Cache (lru now order cm) = delete k (Cache cm).
Proof.
  intros Hit (k1 & v1 & Hk1 & Hold).
  destruct (lru_scan_spec order now "") as [Hall Hcase].
  destruct Hcase as [[_ Hnone] | [_ (v & Hin & Hv)]].
  - rewrite Forall_forall in Hnone.
    apply (iterates_elem _ _ _ _ Hit) in Hk1.
    specialize (Hnone _ Hk1). simpl in Hnone. lia.
  - exists (lru_scan order now "").2, v. split_and!.
    + by apply (iterates_elem _ _ _ _ Hit).
    + intros k' v' Hk'. rewrite Hv. rewrite Forall_forall in Hall.
      apply (iterates_elem _ _ _ _ Hit) in Hk'. apply (Hall _ Hk').
    + apply lru_Cache.
Qed.

(** With no entry strictly older than the reading, the scan keeps the zero
    string: [lru] deletes the key [""]. *)
Lemma lru_none_older (now : Time) order cm :
  iterates (Cache cm) order →
  (∀ k v, Cache cm !! k = Some v → now ≤ LastAccess v) →
  Cache (lru now order cm) = delete "" (Cache cm).
Proof.
  intros Hit Hnew. rewrite lru_Cache.
  destruct (lru_scan_spec order now "") as [_ [[-> _] | [Hlt (v & Hin & Hv)]]];
    [done |].
  apply (iterates_elem _ _ _ _ Hit) in Hin. apply Hnew in Hin. lia.
Qed.

(** [Set] and [SetWithTTL] without eviction: the key is present, or the
    map does not hold [Capacity] entries. *)
Lemma store_no_evict key (value : any V) (ttl : Duration) (t_lru now : Time)
    order cm :
  is_Some (Cache cm !! key) ∨ len (Cache cm) ≠ Capacity cm →
  store key value ttl t_lru now order cm
  = with_Cache (<[key := mkCacheValue value ttl now]> (Cache cm)) cm.
Proof.
  intros Hc. unfold store, evicts.
  destruct Hc as [Hin | Hne].
  - by rewrite bool_decide_eq_true_2.
  - replace (len (Cache cm) =? Capacity cm) with false
      by (symmetry; by apply Z.eqb_neq).
    by rewrite andb_false_r.
Qed.

(** [Set] and [SetWithTTL] with eviction: a new key and a map that holds
    [Capacity] entries. *)
Lemma store_evict key (value : any V) (ttl : Duration) (t_lru now : Time)
    order cm :
  Cache cm !! key = None → len (Cache cm) = Capacity cm →
  store key value ttl t_lru now order cm
  = with_Cache (<[key := mkCacheValue value ttl now]>
                  (Cache (lru t_lru order cm))) (lru t_lru order cm).
Proof.
  intros Hnone Hfull. unfold store, evicts.
  rewrite bool_decide_eq_false_2 by (rewrite Hnone; by intros [? ?]).
  by rewrite Hfull, Z.eqb_refl.
Qed.

Lemma store_Capacity key (value : any V) (ttl : Duration) (t_lru now : Time)
    order cm :
  Capacity (store key value ttl t_lru now order cm) = Capacity cm.
Proof. unfold store. by destruct (evicts key cm). Qed.

Lemma store_lookup key (value : any V) (ttl : Duration) (t_lru now : Time)
    order cm :
  Cache (store key value ttl t_lru now order cm) !! key
  = Some (mkCacheValue value ttl now).
Proof. unfold store. simpl. apply lookup_insert_eq. Qed.

Lemma Delete_Cache key cm : Cache (Delete key cm) = delete key (Cache cm).
Proof.
  unfold Delete. destruct (Cache cm !! key) eqn:Hk; [done |].
  by rewrite delete_id.
Qed.

Lemma Delete_Stats key cm : Stats (Delete key cm) = Stats cm.
Proof. unfold Delete. by destruct (Cache cm !! key). Qed.

Lemma Delete_Capacity key cm : Capacity (Delete key cm) = Capacity cm.
Proof. unfold Delete. by destruct (Cache cm !! key). Qed.

(** [Get] never touches the map, whatever it returns. *)
Lemma Get_Cache key (now : Time) cm : Cache (Get key now cm).2 = Cache cm.
Proof.
  unfold Get. destruct (Cache cm !! key) as [v |]; [| done].
  by destruct (expired now v).
Qed.

Lemma Get_Capacity key (now : Time) cm :
  Capacity (Get key now cm).2 = Capacity cm.
Proof.
  unfold Get. destruct (Cache cm !! key) as [v |]; [| done].
  by destruct (expired now v).
Qed.

Lemma Get_miss key (now : Time) cm :
  misses key now cm →
  Get key now cm = ((nil, false), with_Stats (recordMiss (Stats cm)) cm).
Proof.
  unfold Get. intros [-> | (v & -> & Hexp)]; [done |].
  unfold expired. by rewrite (proj2 (Z.ltb_lt _ _) Hexp).
Qed.

Lemma Get_hit key (now : Time) cm v :
  Cache cm !! key = Some v → Sub now (LastAccess v) ≤ TTL v →
  Get key now cm = ((Value v, true), with_Stats (recordHit (Stats cm)) cm).
Proof.
  unfold Get. intros -> Hle. unfold expired.
  by rewrite (proj2 (Z.ltb_ge _ _) Hle).
Qed.

(** ** The sweep *)

Lemma ClearByTTL_loop_frame (now : Time) order cm :
  let cm' := ClearByTTL_loop now order cm in
  Capacity cm' = Capacity cm ∧ DefaultTTL cm' = DefaultTTL cm ∧
  CleanupTick cm' = CleanupTick cm ∧
  Hits (Stats cm') = Hits (Stats cm) ∧ Misses (Stats cm') = Misses (Stats cm) ∧
  Size (Stats cm') = Size (Stats cm).
Proof.
  revert cm. induction order as [| [k v] rest IH]; intros cm; simpl; [done |].
  destruct (expired now v); [| apply IH].
  destruct (IH (Delete k (with_Stats (recordEviction (Stats cm)) cm)))
    as (-> & -> & -> & -> & -> & ->).
  unfold Delete. by destruct (Cache _ !! k).
Qed.

Lemma ClearByTTL_loop_absent (now : Time) order cm k :
  Cache cm !! k = None → Cache (ClearByTTL_loop now order cm) !! k = None.
Proof.
  revert cm. induction order as [| [k' v'] rest IH]; intros cm Hk; simpl;
    [done |].
  destruct (expired now v'); [| by apply IH].
  apply IH. rewrite Delete_Cache. simpl.
  rewrite lookup_delete. by case_decide.
Qed.

Lemma ClearByTTL_loop_expired (now : Time) order cm k v :
  (k, v) ∈ order → expired now v = true →
  Cache (ClearByTTL_loop now order cm) !! k = None.
Proof.
  revert cm. induction order as [| [k' v'] rest IH]; intros cm Hin Hexp.
  - by apply elem_of_nil in Hin.
  - simpl. apply elem_of_cons in Hin as [Heq | Hin].
    + inversion Heq; subst k' v'. rewrite Hexp.
      apply ClearByTTL_loop_absent. rewrite Delete_Cache. simpl.
      apply lookup_delete_eq.
    + destruct (expired now v'); by apply IH.
Qed.

Lemma ClearByTTL_loop_kept (now : Time) order cm k :
  (∀ v, (k, v) ∈ order → expired now v = false) →
  Cache (ClearByTTL_loop now order cm) !! k = Cache cm !! k.
Proof.
  revert cm. induction order as [| [k' v'] rest IH]; intros cm Hkeep; simpl;
    [done |].
  assert (Hrest : ∀ v, (k, v) ∈ rest → expired now v = false)
    by (intros v Hv; apply Hkeep; by right).
  destruct (expired now v') eqn:Hexp; [| by apply IH].
  rewrite IH by done. rewrite Delete_Cache. simpl.
  apply lookup_delete_ne. intros <-.
  rewrite Hkeep in Hexp; [done | by left].
Qed.

Lemma ClearByTTL_loop_Evictions (now : Time) order cm :
  min_int64 ≤ Evictions (Stats cm) →
  Evictions (Stats cm) + Z.of_nat (length (filter (stale now) order))
    ≤ max_int64 →
  Evictions (Stats (ClearByTTL_loop now order cm))
  = Evictions (Stats cm) + Z.of_nat (length (filter (stale now) order)).
Proof.
  revert cm. induction order as [| [k v] rest IH]; intros cm Hlo Hhi.
  - simpl. lia.
  - rewrite filter_cons in *. cbn [ClearByTTL_loop].
    destruct (decide (stale now (k, v))) as [Hst | Hst]; unfold stale in Hst;
      simpl in Hst.
    + rewrite Hst. simpl length in *.
      assert (He : AddInt64 (Evictions (Stats cm)) 1 = Evictions (Stats cm) + 1)
        by (apply AddInt64_exact; unfold in_int64; lia).
      rewrite IH; rewrite Delete_Stats; simpl; rewrite He; lia.
    + apply not_true_is_false in Hst. rewrite Hst. by apply IH.
Qed.

Lemma NoDup_fst_filter (P : string * CacheValue V → Prop)
    `{!∀ kv, Decision (P kv)} order :
  NoDup order.*1 → NoDup (filter P order).*1.
Proof.
  induction order as [| [k v] rest IH]; [done |].
  rewrite fmap_cons, NoDup_cons. intros [Hk Hrest].
  rewrite filter_cons. destruct (decide (P (k, v))); [| by apply IH].
  rewrite fmap_cons, NoDup_cons. split; [| by apply IH].
  intros Hin. apply Hk. simpl in *.
  apply list_elem_of_fmap in Hin as ([k' v'] & -> & Hin').
  apply list_elem_of_fmap. exists (k', v'). split; [done |].
  by apply list_elem_of_filter in Hin' as [_ ?].
Qed.

(** The number of entries produced that pass a test is the number of
    entries of the map that pass it. *)
Lemma iterates_filter_length (P : string * CacheValue V → Prop)
    `{!∀ kv, Decision (P kv)} m order :
  iterates m order →
  Z.of_nat (length (filter P order)) = len (filter P m).
Proof.
  unfold iterates, len. intros Hp. rewrite Hp. f_equal.
  rewrite map_filter_alt. symmetry. apply map_size_list_to_map.
  apply NoDup_fst_filter, NoDup_fst_map_to_list.
Qed.

Lemma len_filter_le (P : string * CacheValue V → Prop)
    `{!∀ kv, Decision (P kv)} m :
  0 ≤ len (filter P m) ≤ len m.
Proof.
  unfold len. pose proof (map_subseteq_size _ _ (map_filter_subseteq P m)). lia.
Qed.

(** ** Sizes *)

Lemma len_nonneg m : 0 ≤ len m.
Proof. unfold len. lia. Qed.

Lemma len_empty : len (∅ : gmap string (CacheValue V)) = 0.
Proof. unfold len. by rewrite map_size_empty. Qed.

Lemma len_insert_le m k v : len m ≤ len (<[k := v]> m) ≤ len m + 1.
Proof.
  unfold len. rewrite map_size_insert. destruct (m !! k); simpl; lia.
Qed.

Lemma len_insert_Some m k v : is_Some (m !! k) → len (<[k := v]> m) = len m.
Proof. unfold len. intros H. by rewrite map_size_insert_Some. Qed.

Lemma len_insert_None m k v : m !! k = None → len (<[k := v]> m) = len m + 1.
Proof. unfold len. intros H. rewrite map_size_insert_None by done. lia. Qed.

Lemma len_delete_le m k : len (delete k m) ≤ len m.
Proof.
  unfold len. rewrite map_size_delete. destruct (m !! k); simpl; lia.
Qed.

Lemma len_delete_Some m k : is_Some (m !! k) → len (delete k m) = len m - 1.
Proof.
  unfold len. intros H. rewrite map_size_delete_Some by done.
  destruct H as [v Hv]. assert (size m ≠ 0%nat); [| lia].
  apply map_size_non_empty_iff. intros ->. by rewrite lookup_empty in Hv.
Qed.

Lemma len_pos_lookup m : 0 < len m → ∃ k v, m !! k = Some v.
Proof.
  unfold len. intros Hpos. apply map_size_ne_0_lookup. lia.
Qed.

(** The two halves of a map under a sweep. *)
Lemma len_stale_fresh (now : Time) m :
  len m = len (filter (stale now) m) + len (filter (fresh now) m).
Proof.
  unfold len.
  rewrite <- (map_filter_union_complement (stale now) m) at 1.
  rewrite map_size_disj_union by apply map_disjoint_filter_complement.
  rewrite Nat2Z.inj_add. do 3 f_equal. apply map_filter_ext.
  intros k v _. unfold stale, fresh. simpl. by destruct (expired now v).
Qed.

(** * The operations, one call at a time *)

(** C5. A [Get] of a key that is absent, or whose entry has
    [now - LastAccess > TTL], returns [(nil, false)], adds one to [Misses]
    and leaves the map as it was: the expired entry stays. In particular
    an entry stored with [ttl = T] misses at every reading more than [T]
    after the one stored with it. The counter is an [int64] below its
    maximum. *)
Theorem Get_miss_is_boolean key (now : Time) cm :
  misses key now cm →
  min_int64 ≤ Misses (Stats cm) < max_int64 →
  (Get key now cm).1 = (nil, false) ∧
  Cache (Get key now cm).2 = Cache cm ∧
  Misses (Stats (Get key now cm).2) = Misses (Stats cm) + 1 ∧
  Hits (Stats (Get key now cm).2) = Hits (Stats cm) ∧
  Evictions (Stats (Get key now cm).2) = Evictions (Stats cm) ∧
  (∀ (value : any V) (T : Duration) (t_lru t_ins : Time) order,
     T < Sub now t_ins →
     (Get key now (SetWithTTL key value T t_lru t_ins order cm)).1
     = (nil, false)).
Proof.
  intros Hmiss Hrange. rewrite (Get_miss _ _ _ Hmiss). simpl.
  split_and!; try done.
  - apply AddInt64_exact. unfold in_int64. lia.
  - intros value T t_lru t_ins order Hlate. rewrite Get_miss; [done |].
    right. eexists. split; [apply store_lookup | done].
Qed.

(** C7. A sweep removes exactly the entries whose age
    [now - LastAccess] strictly exceeds their [TTL], keeps every other
    entry as it is, adds to [Evictions] the number of entries removed, and
    leaves [Hits] and [Misses] alone. [Evictions] is an [int64] with room
    for the entries removed. *)
Theorem ClearByTTL_sweeps_expired (now : Time) order cm :
  iterates (Cache cm) order →
  min_int64 ≤ Evictions (Stats cm) →
  Evictions (Stats cm)
  + len (filter (λ kv, TTL kv.2 < Sub now (LastAccess kv.2)) (Cache cm))
    ≤ max_int64 →
  let cm' := ClearByTTL now order cm in
  (∀ k v, Cache cm !! k = Some v → TTL v < Sub now (LastAccess v) →
     Cache cm' !! k = None) ∧
  (∀ k v, Cache cm !! k = Some v → Sub now (LastAccess v) ≤ TTL v →
     Cache cm' !! k = Some v) ∧
  (∀ k, Cache cm !! k = None → Cache cm' !! k = None) ∧
  Cache cm'
    = filter (λ kv, Sub now (LastAccess kv.2) ≤ TTL kv.2) (Cache cm) ∧
  Evictions (Stats cm')
    = Evictions (Stats cm)
      + len (filter (λ kv, TTL kv.2 < Sub now (LastAccess kv.2)) (Cache cm)) ∧
  Evictions (Stats cm') - Evictions (Stats cm)
    = len (Cache cm) - len (Cache cm') ∧
  Hits (Stats cm') = Hits (Stats cm) ∧
  Misses (Stats cm') = Misses (Stats cm).
Proof.
  intros Hit Hlo Hhi cm'. subst cm'. unfold ClearByTTL.
  assert (Hold : filter (λ kv, TTL kv.2 < Sub now (LastAccess kv.2)) (Cache cm)
                 = filter (stale now) (Cache cm)).
  { apply map_filter_ext. intros k v _. unfold stale, expired. simpl.
    symmetry. apply Z.ltb_lt. }
  assert (Hyoung : filter (λ kv, Sub now (LastAccess kv.2) ≤ TTL kv.2) (Cache cm)
                   = filter (fresh now) (Cache cm)).
  { apply map_filter_ext. intros k v _. unfold fresh, expired. simpl.
    symmetry. apply Z.ltb_ge. }
  rewrite Hold in *. rewrite Hyoung.
  assert (Hgone : ∀ k v, Cache cm !! k = Some v →
            TTL v < Sub now (LastAccess v) →
            Cache (ClearByTTL_loop now order cm) !! k = None).
  { intros k v Hk Hexp. apply (ClearByTTL_loop_expired _ _ _ _ v).
    - by apply (iterates_elem _ _ _ _ Hit).
    - unfold expired. by apply Z.ltb_lt. }
  assert (Hkept : ∀ k v, Cache cm !! k = Some v →
            Sub now (LastAccess v) ≤ TTL v →
            Cache (ClearByTTL_loop now order cm) !! k = Some v).
  { intros k v Hk Hle. rewrite ClearByTTL_loop_kept; [done |].
    intros v' Hv'. apply (iterates_elem _ _ _ _ Hit) in Hv'.
    assert (v' = v) as -> by congruence.
    unfold expired. by apply Z.ltb_ge. }
  assert (Hnone : ∀ k, Cache cm !! k = None →
            Cache (ClearByTTL_loop now order cm) !! k = None).
  { intros k Hk. by apply ClearByTTL_loop_absent. }
  assert (Hmap : Cache (ClearByTTL_loop now order cm)
                 = filter (fresh now) (Cache cm)).
  { apply map_eq. intros k. rewrite map_lookup_filter.
    destruct (Cache cm !! k) as [v |] eqn:Hk; simpl.
    - destruct (decide (fresh now (k, v))) as [Hf | Hf].
      + rewrite option_guard_True by done. unfold fresh, expired in Hf.
        simpl in Hf. apply Z.ltb_ge in Hf. by apply Hkept.
      + rewrite option_guard_False by done. unfold fresh, expired in Hf.
        simpl in Hf. apply not_false_is_true, Z.ltb_lt in Hf.
        by apply (Hgone k v).
    - by apply Hnone. }
  assert (Hev : Evictions (Stats (ClearByTTL_loop now order cm))
                = Evictions (Stats cm) + len (filter (stale now) (Cache cm))).
  { rewrite <- (iterates_filter_length (stale now) _ _ Hit).
    apply ClearByTTL_loop_Evictions; [done |].
    by rewrite (iterates_filter_length (stale now) _ _ Hit). }
  destruct (ClearByTTL_loop_frame now order cm) as (_ & _ & _ & Hh & Hm & _).
  split_and!; try done.
  rewrite Hev, Hmap. pose proof (len_stale_fresh now (Cache cm)). lia.
Qed.

(** C8. [Clear] replaces the map by the empty map and leaves the counters
    [Hits], [Misses] and [Evictions] as they were. *)
Theorem Clear_empties_keeps_counters cm :
  Cache (Clear cm) = ∅ ∧
  Hits (Stats (Clear cm)) = Hits (Stats cm) ∧
  Misses (Stats (Clear cm)) = Misses (Stats cm) ∧
  Evictions (Stats (Clear cm)) = Evictions (Stats cm).
Proof. by unfold Clear. Qed.

(** C10. [Delete], of a present key or of an absent one, leaves [Hits],
    [Misses] and [Evictions] as they were: removing a present entry by
    hand is not counted as an eviction. *)
Theorem Delete_keeps_counters key cm :
  Cache (Delete key cm) = delete key (Cache cm) ∧
  Hits (Stats (Delete key cm)) = Hits (Stats cm) ∧
  Misses (Stats (Delete key cm)) = Misses (Stats cm) ∧
  Evictions (Stats (Delete key cm)) = Evictions (Stats cm).
Proof. split; [apply Delete_Cache | by rewrite Delete_Stats]. Qed.

(** * Executions *)

Lemma run_app ops1 ops2 cm : run (ops1 ++ ops2) cm = run ops2 (run ops1 cm).
Proof. revert cm. induction ops1 as [| op rest IH]; intros cm; simpl; auto. Qed.

Lemma trace_ok_app ops1 ops2 cm :
  trace_ok cm (ops1 ++ ops2) ↔ trace_ok cm ops1 ∧ trace_ok (run ops1 cm) ops2.
Proof.
  revert cm. induction ops1 as [| op rest IH]; intros cm; simpl; [tauto |].
  rewrite IH. tauto.
Qed.

Lemma exec_Capacity op cm : Capacity (exec op cm) = Capacity cm.
Proof.
  destruct op as [key value t_lru now order
    | key value ttl t_lru now order | key now | key | | now order |];
    cbn [exec]; try done.
  - apply store_Capacity.
  - apply store_Capacity.
  - apply Get_Capacity.
  - apply Delete_Capacity.
  - apply (ClearByTTL_loop_frame now order cm).
Qed.

Lemma run_Capacity ops cm : Capacity (run ops cm) = Capacity cm.
Proof.
  revert cm. induction ops as [| op rest IH]; intros cm; [done |].
  simpl. by rewrite IH, exec_Capacity.
Qed.

(** ** The counters along an execution *)

Lemma store_counted key (value : any V) (ttl : Duration) (t_lru now : Time)
    order cm (n : Z) :
  n < 2 ^ 62 → counted n cm →
  let cm' := store key value ttl t_lru now order cm in
  counted (n + 1) cm' ∧
  Hits (Stats cm') = Hits (Stats cm) ∧
  Misses (Stats cm') = Misses (Stats cm) ∧
  Evictions (Stats cm) ≤ Evictions (Stats cm').
Proof.
  intros Hn (Hh & Hm & He & Hsum). unfold store.
  pose proof (len_nonneg (Cache cm)) as Hlen.
  destruct (evicts key cm); simpl.
  - assert (Hadd : AddInt64 (Evictions (Stats cm)) 1 = Evictions (Stats cm) + 1)
      by (apply AddInt64_exact; unfold in_int64, min_int64, max_int64; lia).
    rewrite Hadd. unfold counted. simpl. rewrite Hadd.
    pose proof (len_insert_le
      (delete (lru_scan order t_lru "").2 (Cache cm)) key
      (mkCacheValue value ttl now)).
    pose proof (len_delete_le (Cache cm) (lru_scan order t_lru "").2).
    lia.
  - unfold counted. simpl.
    pose proof (len_insert_le (Cache cm) key (mkCacheValue value ttl now)).
    lia.
Qed.

Lemma Get_counted key (now : Time) cm (n : Z) :
  n < 2 ^ 62 → counted n cm →
  let cm' := (Get key now cm).2 in
  counted (n + 1) cm' ∧
  Hits (Stats cm) ≤ Hits (Stats cm') ∧
  Misses (Stats cm) ≤ Misses (Stats cm') ∧
  Evictions (Stats cm') = Evictions (Stats cm).
Proof.
  intros Hn (Hh & Hm & He & Hsum).
  assert (Hhit : AddInt64 (Hits (Stats cm)) 1 = Hits (Stats cm) + 1)
    by (apply AddInt64_exact; unfold in_int64, min_int64, max_int64; lia).
  assert (Hmiss : AddInt64 (Misses (Stats cm)) 1 = Misses (Stats cm) + 1)
    by (apply AddInt64_exact; unfold in_int64, min_int64, max_int64; lia).
  unfold Get, counted.
  destruct (Cache cm !! key) as [v |]; [destruct (expired now v) |]; simpl;
    rewrite ?Hhit, ?Hmiss; lia.
Qed.

Lemma ClearByTTL_counted (now : Time) order cm (n : Z) :
  n < 2 ^ 62 → counted n cm → iterates (Cache cm) order →
  let cm' := ClearByTTL now order cm in
  counted (n + 1) cm' ∧
  Hits (Stats cm') = Hits (Stats cm) ∧
  Misses (Stats cm') = Misses (Stats cm) ∧
  Evictions (Stats cm) ≤ Evictions (Stats cm').
Proof.
  intros Hn (Hh & Hm & He & Hsum) Hit cm'. subst cm'. unfold ClearByTTL.
  pose proof (len_filter_le (stale now) (Cache cm)) as Hst.
  pose proof (len_nonneg (Cache (ClearByTTL_loop now order cm))) as Hlen'.
  destruct (ClearByTTL_loop_frame now order cm) as (_ & _ & _ & Hh' & Hm' & _).
  assert (Hev : Evictions (Stats (ClearByTTL_loop now order cm))
                = Evictions (Stats cm) + len (filter (stale now) (Cache cm))).
  { rewrite <- (iterates_filter_length (stale now) _ _ Hit).
    apply ClearByTTL_loop_Evictions.
    - unfold min_int64. lia.
    - rewrite (iterates_filter_length (stale now) _ _ Hit).
      unfold max_int64. lia. }
  assert (Hsize : len (Cache (ClearByTTL_loop now order cm))
                  ≤ len (Cache cm) - len (filter (stale now) (Cache cm))).
  { pose proof (len_stale_fresh now (Cache cm)) as Hsplit.
    assert (Hsub : Cache (ClearByTTL_loop now order cm)
                   ⊆ filter (fresh now) (Cache cm)).
    { apply map_subseteq_spec. intros k v Hk.
      apply map_lookup_filter_Some.
      destruct (Cache cm !! k) as [v0 |] eqn:Hk0.
      - destruct (expired now v0) eqn:Hexp.
        + rewrite (ClearByTTL_loop_expired now order cm k v0) in Hk;
            [done | by apply (iterates_elem _ _ _ _ Hit) | done].
        + rewrite ClearByTTL_loop_kept in Hk.
          * rewrite Hk0 in Hk. inversion Hk; subst v0. done.
          * intros v' Hv'. apply (iterates_elem _ _ _ _ Hit) in Hv'.
            congruence.
      - by rewrite ClearByTTL_loop_absent in Hk. }
    apply map_subseteq_size in Hsub. unfold len in *. lia. }
  unfold counted. rewrite Hh', Hm', Hev. lia.
Qed.

(** One call keeps the counters counted and does not lower any of them. *)
Lemma exec_counted op cm (n : Z) :
  n < 2 ^ 62 → counted n cm → op_ok cm op →
  counted (n + 1) (exec op cm) ∧
  Hits (Stats cm) ≤ Hits (Stats (exec op cm)) ∧
  Misses (Stats cm) ≤ Misses (Stats (exec op cm)) ∧
  Evictions (Stats cm) ≤ Evictions (Stats (exec op cm)).
Proof.
  intros Hn Hc Hok. destruct op as [key value t_lru now order
    | key value ttl t_lru now order | key now | key | | now order |];
    cbn [exec].
  - destruct (store_counted key value (DefaultTTL cm) t_lru now order cm n
      Hn Hc) as (? & ? & ? & ?). unfold Set_. split_and!; [done | lia ..].
  - destruct (store_counted key value ttl t_lru now order cm n Hn Hc)
      as (? & ? & ? & ?). unfold SetWithTTL. split_and!; [done | lia ..].
  - destruct (Get_counted key now cm n Hn Hc) as (? & ? & ? & ?).
    split_and!; [done | lia ..].
  - destruct Hc as (? & ? & ? & ?). unfold counted.
    rewrite Delete_Stats, Delete_Cache.
    pose proof (len_delete_le (Cache cm) key). lia.
  - destruct Hc as (? & ? & ? & ?). unfold counted, Clear. simpl.
    rewrite len_empty. pose proof (len_nonneg (Cache cm)). lia.
  - destruct (ClearByTTL_counted now order cm n Hn Hc Hok) as (? & ? & ? & ?).
    split_and!; [done | lia ..].
  - destruct Hc as (? & ? & ? & ?). unfold counted. simpl. lia.
Qed.

Lemma run_counted ops cm (n : Z) :
  counted n cm → trace_ok cm ops → n + Z.of_nat (length ops) ≤ 2 ^ 62 →
  counted (n + Z.of_nat (length ops)) (run ops cm).
Proof.
  revert cm n. induction ops as [| op rest IH]; intros cm n Hc Hok Hn.
  - simpl. by rewrite Z.add_0_r.
  - destruct Hok as [Hop Hrest]. simpl length in *. simpl run.
    destruct (exec_counted op cm n) as [Hc' _]; [lia | done | done |].
    replace (n + Z.of_nat (S (length rest)))
      with ((n + 1) + Z.of_nat (length rest)) by lia.
    apply IH; [done | done | lia].
Qed.

Lemma NewCacheManager_counted (maxSize : Z) (defaultTTL cleanupTick : Duration) :
  counted 0 (NewCacheManager (V := V) maxSize defaultTTL cleanupTick).
Proof. unfold counted. simpl. rewrite len_empty. lia. Qed.

(** C9. Along every execution from a new manager, [Hits], [Misses] and
    [Evictions] are non-negative before and after each call ([Set],
    [SetWithTTL], [Get], [Delete], [Clear], [ClearByTTL], [GetStats]) and no
    call lowers any of them. The execution has fewer than [2 ^ 62] calls,
    which keeps the [int64] counters from wrapping around. *)
Theorem counters_never_decrease (maxSize : Z) (defaultTTL cleanupTick : Duration)
    ops pre op post :
  trace_ok (NewCacheManager maxSize defaultTTL cleanupTick) ops →
  Z.of_nat (length ops) < 2 ^ 62 →
  ops = pre ++ op :: post →
  let before := Stats (run pre (NewCacheManager maxSize defaultTTL cleanupTick)) in
  let after :=
    Stats (run (pre ++ [op]) (NewCacheManager maxSize defaultTTL cleanupTick)) in
  0 ≤ Hits before ≤ Hits after ∧
  0 ≤ Misses before ≤ Misses after ∧
  0 ≤ Evictions before ≤ Evictions after.
Proof.
  intros Hok Hlen -> before after. subst before after.
  rewrite run_app. simpl run.
  rewrite length_app in Hlen. simpl length in Hlen.
  apply trace_ok_app in Hok as [Hpre [Hop _]].
  set (cm0 := NewCacheManager maxSize defaultTTL cleanupTick) in *.
  assert (Hc : counted (0 + Z.of_nat (length pre)) (run pre cm0)).
  { apply run_counted; [apply NewCacheManager_counted | done | lia]. }
  destruct (exec_counted op (run pre cm0) (0 + Z.of_nat (length pre)))
    as (_ & ? & ? & ?); [lia | done | done |].
  destruct Hc as (? & ? & ? & ?). lia.
Qed.

(** * Eviction under a clock that tells readings apart

    What [lru] achieves when its reading of the clock is strictly later
    than the [LastAccess] of every entry. *)

Lemma store_evicts_oldest key (value : any V) (ttl : Duration)
    (t_lru now : Time) order cm :
  iterates (Cache cm) order → 0 < Capacity cm →
  Cache cm !! key = None → len (Cache cm) = Capacity cm →
  (∀ k v, Cache cm !! k = Some v → LastAccess v < t_lru) →
  ∃ k v, Cache cm !! k = Some v ∧
    (∀ k' v', Cache cm !! k' = Some v' → LastAccess v ≤ LastAccess v') ∧
    Cache (store key value ttl t_lru now order cm)
      = <[key := mkCacheValue value ttl now]> (delete k (Cache cm)) ∧
    Stats (store key value ttl t_lru now order cm)
      = recordEviction (Stats cm) ∧
    len (Cache (store key value ttl t_lru now order cm)) = len (Cache cm).
Proof.
  intros Hit Hcap Hnew Hfull Hold.
  destruct (len_pos_lookup (Cache cm)) as (k1 & v1 & Hk1); [lia |].
  destruct (lru_oldest t_lru order cm Hit) as (k & v & Hk & Hmin & Hdel).
  { exists k1, v1. split; [done | by apply (Hold k1)]. }
  exists k, v. rewrite (store_evict _ _ _ _ _ _ _ Hnew Hfull). simpl.
  rewrite <- lru_Cache, Hdel. split_and!; try done.
  rewrite len_insert_None.
  - rewrite len_delete_Some by by eexists. lia.
  - rewrite lookup_delete. by case_decide.
Qed.

Lemma increasing_from_app (last : Time) (l1 l2 : list Time) :
  increasing_from last (l1 ++ l2) = true ↔
  increasing_from last l1 = true ∧ increasing_from (latest last l1) l2 = true.
Proof.
  revert last. induction l1 as [| t rest IH]; intros last; simpl.
  - unfold latest. simpl. tauto.
  - rewrite !andb_true_iff, IH. unfold latest. simpl. tauto.
Qed.

Lemma increasing_from_latest (last : Time) (l : list Time) :
  increasing_from last l = true → last ≤ latest last l.
Proof.
  revert last. induction l as [| t rest IH]; intros last; unfold latest; simpl.
  - lia.
  - rewrite andb_true_iff, Z.ltb_lt. intros [Hlt Hrest].
    apply IH in Hrest. unfold latest in Hrest. lia.
Qed.

Lemma clock_app ops1 ops2 cm :
  clock cm (ops1 ++ ops2) = clock cm ops1 ++ clock (run ops1 cm) ops2.
Proof.
  revert cm. induction ops1 as [| op rest IH]; intros cm; simpl; [done |].
  by rewrite IH, app_assoc.
Qed.

Lemma touched_by_mono (last last' : Time) cm :
  last ≤ last' → touched_by last cm → touched_by last' cm.
Proof. intros Hle Ht k v Hk. specialize (Ht k v Hk). lia. Qed.

Lemma ClearByTTL_loop_subseteq (now : Time) order cm :
  Cache (ClearByTTL_loop now order cm) ⊆ Cache cm.
Proof.
  revert cm. induction order as [| [k v] rest IH]; intros cm; simpl; [done |].
  destruct (expired now v); [| apply IH].
  etrans; [apply IH |]. rewrite Delete_Cache. simpl. apply delete_subseteq.
Qed.

Lemma store_settled key (value : any V) (ttl : Duration) (t_lru now : Time)
    order cm (last : Time) :
  settled last cm → (evicts key cm = true → iterates (Cache cm) order) →
  increasing_from last (if evicts key cm then [t_lru; now] else [now]) = true →
  settled now (store key value ttl t_lru now order cm).
Proof.
  intros (Hcap & Hlen & Htouch) Hit Hclock.
  unfold settled. rewrite store_Capacity.
  destruct (evicts key cm) eqn:Hev.
  - specialize (Hit eq_refl). unfold evicts in Hev. apply andb_true_iff in Hev as [Hnew Hfull].
    apply negb_true_iff, bool_decide_eq_false in Hnew.
    apply Z.eqb_eq in Hfull.
    assert (Hnone : Cache cm !! key = None)
      by (destruct (Cache cm !! key) eqn:E; [exfalso; apply Hnew; eauto | done]).
    simpl in Hclock. rewrite !andb_true_iff, !Z.ltb_lt in Hclock.
    destruct Hclock as (Hl1 & Hl2 & _).
    destruct (store_evicts_oldest key value ttl t_lru now order cm)
      as (k & v & Hk & _ & Hmap & _ & Hsame); try done.
    { intros k' v' Hk'. specialize (Htouch k' v' Hk'). lia. }
    split_and!; [done | lia |].
    intros k' v'. rewrite Hmap, lookup_insert. case_decide.
    + intros [= <-]. simpl. lia.
    + rewrite lookup_delete. case_decide; [done |].
      intros Hk'. specialize (Htouch k' v' Hk'). lia.
  - simpl in Hclock. rewrite andb_true_iff, Z.ltb_lt in Hclock.
    destruct Hclock as [Hl _].
    assert (Hcase : is_Some (Cache cm !! key) ∨ len (Cache cm) ≠ Capacity cm).
    { unfold evicts in Hev. apply andb_false_iff in Hev as [Hin | Hne].
      - left. by apply negb_false_iff, bool_decide_eq_true in Hin.
      - right. by apply Z.eqb_neq. }
    rewrite (store_no_evict _ _ _ t_lru _ order _ Hcase). simpl.
    split_and!; [done | |].
    + destruct Hcase as [Hin | Hne].
      * by rewrite len_insert_Some.
      * pose proof (len_insert_le (Cache cm) key (mkCacheValue value ttl now)).
        lia.
    + intros k' v'. cbn [with_Cache Cache]. rewrite lookup_insert.
      case_decide.
      * intros [= <-]. simpl. lia.
      * intros Hk'. specialize (Htouch k' v' Hk'). lia.
Qed.

Lemma exec_settled op cm (last : Time) :
  settled last cm → op_ok cm op →
  increasing_from last (readings cm op) = true →
  settled (latest last (readings cm op)) (exec op cm).
Proof.
  intros Hs Hok Hclock.
  destruct op as [key value t_lru now order
    | key value ttl t_lru now order | key now | key | | now order |];
    cbn [exec readings] in *.
  - replace (latest last _) with now by (by destruct (evicts key cm)).
    by apply (store_settled _ _ _ _ _ _ _ last).
  - replace (latest last _) with now by (by destruct (evicts key cm)).
    by apply (store_settled _ _ _ _ _ _ _ last).
  - destruct Hs as (Hcap & Hlen & Htouch). unfold settled, touched_by.
    rewrite Get_Cache, Get_Capacity. split_and!; [done | done |].
    apply (touched_by_mono last); [| done].
    by apply (increasing_from_latest last [now]).
  - destruct Hs as (Hcap & Hlen & Htouch). unfold settled, touched_by.
    rewrite Delete_Cache, Delete_Capacity. split_and!; [done | |].
    + pose proof (len_delete_le (Cache cm) key). lia.
    + intros k v. rewrite lookup_delete. case_decide; [done | apply Htouch].
  - destruct Hs as (Hcap & Hlen & Htouch). unfold settled, Clear. simpl.
    rewrite len_empty. split_and!; [done | lia |]. intros k v.
    cbn [with_Cache Cache]. by rewrite lookup_empty.
  - destruct Hs as (Hcap & Hlen & Htouch). unfold settled, ClearByTTL.
    destruct (ClearByTTL_loop_frame now order cm) as (-> & _).
    pose proof (ClearByTTL_loop_subseteq now order cm) as Hsub.
    split_and!; [done | |].
    + apply map_subseteq_size in Hsub. unfold len in *. lia.
    + intros k v Hk. rewrite map_subseteq_spec in Hsub.
      apply Hsub, Htouch in Hk.
      pose proof (increasing_from_latest last [now] Hclock).
      unfold latest in *. simpl in *. lia.
  - done.
Qed.

Lemma run_settled ops cm (last : Time) :
  settled last cm → trace_ok cm ops →
  increasing_from last (clock cm ops) = true →
  settled (latest last (clock cm ops)) (run ops cm).
Proof.
  revert cm last. induction ops as [| op rest IH]; intros cm last Hs Hok Hclock;
    [done |].
  destruct Hok as [Hop Hrest]. simpl in *.
  apply increasing_from_app in Hclock as [Hc1 Hc2].
  unfold latest. rewrite foldl_app. apply IH; [| done | done].
  by apply exec_settled.
Qed.

(** Under a clock whose readings all differ, a manager of positive
    capacity never holds more than [Capacity] entries, whatever the calls. *)
Theorem capacity_bound_ticking (maxSize : Z) (defaultTTL cleanupTick : Duration)
    (t0 : Time) ops pre post :
  0 < maxSize →
  trace_ok (NewCacheManager maxSize defaultTTL cleanupTick) ops →
  increasing_from t0 (clock (NewCacheManager maxSize defaultTTL cleanupTick) ops)
    = true →
  ops = pre ++ post →
  len (Cache (run pre (NewCacheManager maxSize defaultTTL cleanupTick)))
    ≤ maxSize.
Proof.
  intros Hcap Hok Hclock ->.
  apply trace_ok_app in Hok as [Hpre _].
  rewrite clock_app in Hclock. apply increasing_from_app in Hclock as [Hc _].
  set (cm0 := NewCacheManager maxSize defaultTTL cleanupTick) in *.
  assert (Hs : settled t0 cm0).
  { unfold settled, cm0. simpl. rewrite len_empty. split_and!; [done | lia |].
    intros k v. cbn [NewCacheManager Cache]. by rewrite lookup_empty. }
  destruct (run_settled pre cm0 t0 Hs Hpre Hc) as (Hc' & Hlen & _).
  by rewrite run_Capacity in Hlen.
Qed.

Lemma store_filled key (value : any V) (ttl : Duration) (t_lru now : Time)
    order cm (last : Time) (keys : gset string) :
  settled last cm → filled keys cm →
  (evicts key cm = true → iterates (Cache cm) order) →
  increasing_from last (if evicts key cm then [t_lru; now] else [now]) = true →
  filled (keys ∪ {[key]}) (store key value ttl t_lru now order cm).
Proof.
  intros (Hcap & Hlen & Htouch) Hf Hit Hclock. unfold filled.
  rewrite store_Capacity. destruct (evicts key cm) eqn:Hev.
  - specialize (Hit eq_refl). unfold evicts in Hev. apply andb_true_iff in Hev as [Hnew Hfull].
    apply negb_true_iff, bool_decide_eq_false in Hnew.
    apply Z.eqb_eq in Hfull.
    assert (Hnone : Cache cm !! key = None)
      by (destruct (Cache cm !! key) eqn:E; [exfalso; apply Hnew; eauto | done]).
    simpl in Hclock. rewrite !andb_true_iff, !Z.ltb_lt in Hclock.
    destruct Hclock as (Hl1 & Hl2 & _).
    destruct (store_evicts_oldest key value ttl t_lru now order cm)
      as (k & v & _ & _ & _ & _ & Hsame); try done.
    { intros k' v' Hk'. specialize (Htouch k' v' Hk'). lia. }
    lia.
  - assert (Hcase : is_Some (Cache cm !! key) ∨ len (Cache cm) ≠ Capacity cm).
    { unfold evicts in Hev. apply andb_false_iff in Hev as [Hin | Hne].
      - left. by apply negb_false_iff, bool_decide_eq_true in Hin.
      - right. by apply Z.eqb_neq. }
    rewrite (store_no_evict _ _ _ t_lru _ order _ Hcase). simpl.
    intros Hbelow.
    pose proof (len_insert_le (Cache cm) key (mkCacheValue value ttl now)).
    rewrite dom_insert_L, Hf by lia. apply (comm_L (∪)).
Qed.

Lemma stored_nil : stored (V := V) [] = ∅.
Proof. done. Qed.

Lemma stored_cons op ops : stored (op :: ops) = list_to_set (stored_key op) ∪ stored ops.
Proof. unfold stored. simpl. by rewrite list_to_set_app_L. Qed.

Lemma run_filled ops cm (last : Time) (keys : gset string) :
  settled last cm → filled keys cm → trace_ok cm ops →
  increasing_from last (clock cm ops) = true →
  Forall (λ op, is_Set op = true) ops →
  filled (keys ∪ stored ops) (run ops cm).
Proof.
  revert cm last keys.
  induction ops as [| op rest IH]; intros cm last keys Hs Hf Hok Hclock Hset.
  - rewrite stored_nil, (right_id_L ∅ (∪)). done.
  - destruct Hok as [Hop Hrest]. apply Forall_cons in Hset as [Hop_set Hset].
    simpl in Hclock. apply increasing_from_app in Hclock as [Hc1 Hc2].
    destruct op as [key value t_lru now order | | | | | |]; try done.
    rewrite stored_cons. simpl stored_key. simpl run.
    replace (list_to_set [key] : gset string) with ({[key]} : gset string)
      by (simpl; by rewrite (right_id_L ∅ (∪))).
    rewrite (assoc_L (∪)).
    apply (IH _ (latest last (readings cm (OpSet key value t_lru now order))));
      try done.
    + by apply exec_settled.
    + by apply (store_filled _ _ _ _ _ _ _ last).
Qed.

(** Under a clock whose readings all differ, a sequence of [Set] calls on
    more than [Capacity] distinct keys leaves exactly [Capacity] entries. *)
Theorem Set_fills_to_capacity_ticking (maxSize : Z)
    (defaultTTL cleanupTick : Duration) (t0 : Time) ops :
  0 < maxSize →
  trace_ok (NewCacheManager maxSize defaultTTL cleanupTick) ops →
  increasing_from t0 (clock (NewCacheManager maxSize defaultTTL cleanupTick) ops)
    = true →
  Forall (λ op, is_Set op = true) ops →
  maxSize < Z.of_nat (size (stored ops)) →
  len (Cache (run ops (NewCacheManager maxSize defaultTTL cleanupTick)))
    = maxSize.
Proof.
  intros Hcap Hok Hclock Hset Hmany.
  set (cm0 := NewCacheManager maxSize defaultTTL cleanupTick) in *.
  assert (Hs : settled t0 cm0).
  { unfold settled, cm0. simpl. rewrite len_empty. split_and!; [done | lia |].
    intros k v. cbn [NewCacheManager Cache]. by rewrite lookup_empty. }
  assert (Hf : filled ∅ cm0).
  { unfold filled, cm0. simpl. intros _. apply dom_empty_L. }
  destruct (run_settled ops cm0 t0 Hs Hok Hclock) as (_ & Hlen & _).
  pose proof (run_filled ops cm0 t0 ∅ Hs Hf Hok Hclock Hset) as Hfill.
  unfold filled in Hfill. rewrite run_Capacity in *. simpl in *.
  destruct (Z.eq_dec (len (Cache (run ops cm0))) maxSize) as [| Hne]; [done |].
  exfalso. rewrite (left_id_L ∅ (∪)) in Hfill.
  assert (Hdom : dom (Cache (run ops cm0)) = stored ops) by (apply Hfill; lia).
  apply (f_equal size) in Hdom. rewrite size_dom in Hdom.
  unfold len in *. lia.
Qed.

(** * What a hit does *)

(** A [Get] of a present, unexpired key returns the stored value and adds
    one to [Hits]; the map, and with it the entry's [LastAccess], stays as
    it was. *)
Lemma Get_hit_leaves_entry key (now : Time) cm v :
  Cache cm !! key = Some v → Sub now (LastAccess v) ≤ TTL v →
  (Get key now cm).1 = (Value v, true) ∧
  Hits (Stats (Get key now cm).2) = AddInt64 (Hits (Stats cm)) 1 ∧
  Cache (Get key now cm).2 !! key = Some v.
Proof.
  intros Hk Hle. rewrite Get_Cache, (Get_hit _ _ _ _ Hk Hle). by simpl.
Qed.

(** Storing under a present key, or into a map that does not hold
    [Capacity] entries, evicts nothing. *)
Lemma store_no_evict_spec key (value : any V) (ttl : Duration)
    (t_lru now : Time) order cm :
  is_Some (Cache cm !! key) ∨ len (Cache cm) ≠ Capacity cm →
  Cache (store key value ttl t_lru now order cm)
    = <[key := mkCacheValue value ttl now]> (Cache cm) ∧
  Stats (store key value ttl t_lru now order cm) = Stats cm.
Proof. intros Hc. by rewrite (store_no_evict _ _ _ _ _ _ _ Hc). Qed.

(** Storing a new key into a full map when no entry is strictly older than
    the reading in [lru]: the key [""] is deleted, present or not, and an
    eviction is counted. *)
Lemma store_evict_none_older key (value : any V) (ttl : Duration)
    (t_lru now : Time) order cm :
  iterates (Cache cm) order →
  Cache cm !! key = None → len (Cache cm) = Capacity cm →
  (∀ k v, Cache cm !! k = Some v → t_lru ≤ LastAccess v) →
  Cache (store key value ttl t_lru now order cm)
    = <[key := mkCacheValue value ttl now]> (delete "" (Cache cm)) ∧
  Stats (store key value ttl t_lru now order cm) = recordEviction (Stats cm).
Proof.
  intros Hit Hnew Hfull Hnone.
  rewrite (store_evict _ _ _ _ _ _ _ Hnew Hfull). simpl.
  by rewrite <- lru_Cache, (lru_none_older _ _ _ Hit Hnone).
Qed.

End CacheFacts.

(** * The scenarios *)

Import Scenario.

(** C1. [Get] on a present, unexpired key returns [(value, true)] and adds
    one to [Hits], but the entry keeps its [LastAccess]: stored at reading
    1 with TTL 10 and read at 5, the entry still carries 1, and a [Get] at
    reading 12, only 7 after the successful read, misses. The read did not
    extend the deadline. *)
Theorem Get_hit_does_not_refresh :
  read_a.1 = (Some 1, true) ∧
  Hits (Stats read_a.2) = Hits (Stats two_a) + 1 ∧
  LastAccess <$> Cache read_a.2 !! "a" = Some 1 ∧
  Sub 12 5 ≤ 10 ∧
  (Get "a" 12 read_a.2).1 = (nil, false).
Proof. vm_compute. split_and!; done. Qed.

(** C2. With capacity 1 and a clock that shows the same reading during
    two [Set] calls on distinct keys, the execution is well formed and the
    map ends with 2 entries: more than the capacity, and not exactly the
    capacity after more distinct keys than it. *)
Theorem capacity_exceeded_same_instant :
  0 < Capacity one ∧
  trace_ok one same_instant ∧
  nondecreasing_from 7 (clock one same_instant) = true ∧
  Forall (λ op, is_Set op = true) same_instant ∧
  size (stored same_instant) = 2%nat ∧
  Capacity one_ab = 1 ∧
  len (Cache one_ab) = 2.
Proof.
  split_and!; try (by vm_compute).
  repeat constructor.
Qed.

(** C3. With the clock showing the same reading, [Set] of the new key "b"
    into a manager that holds exactly [Capacity] entries counts one
    eviction and removes no entry: the map afterwards is the map before
    with "b" added. *)
Theorem eviction_removes_nothing_same_instant :
  Cache one_a !! "b" = None ∧
  len (Cache one_a) = Capacity one_a ∧
  evicts "b" one_a = true ∧
  iterates (Cache one_a) [("a", entry_a7)] ∧
  Evictions (Stats one_ab) = Evictions (Stats one_a) + 1 ∧
  Cache one_ab = <["b" := mkCacheValue (Some 2) 10 7]> (Cache one_a) ∧
  len (Cache one_ab) = len (Cache one_a) + 1.
Proof. split_and!; by vm_compute. Qed.

(** C4. Capacity 2 filled with "a" then "b"; "a" is read successfully;
    then the new key "c" is stored. Whichever order [range] produces the
    two entries in, the entry evicted is "a", the key that was read, and
    "b" stays. *)
Theorem Set_after_Get_evicts_key_read :
  len (Cache two_ab) = Capacity two_ab ∧
  (Get "a" 3 two_ab).1 = (Some 1, true) ∧
  iterates (Cache two_ab_read) order_ab ∧
  iterates (Cache two_ab_read) order_ba ∧
  Cache (two_then_c order_ab) !! "a" = None ∧
  Cache (two_then_c order_ab) !! "b" = Some entry_b ∧
  Cache (two_then_c order_ba) !! "a" = None ∧
  Cache (two_then_c order_ba) !! "b" = Some entry_b.
Proof.
  split_and!; try (by vm_compute).
  unfold iterates. vm_compute. apply perm_swap.
Qed.

(** C6. [GetStats] returns [Size = 1] whatever the map holds: on a new
    manager, which holds no entry, and on one that holds two. The other
    three fields are the current counters. *)
Theorem GetStats_Size_is_one :
  Size (GetStats two).1 = 1 ∧ len (Cache two) = 0 ∧
  Size (GetStats two_ab).1 = 1 ∧ len (Cache two_ab) = 2 ∧
  Hits (GetStats two_ab).1 = Hits (Stats two_ab) ∧
  Misses (GetStats two_ab).1 = Misses (Stats two_ab) ∧
  Evictions (GetStats two_ab).1 = Evictions (Stats two_ab).
Proof. split_and!; by vm_compute. Qed.

(** ** Instances of the general theorems *)

Lemma Get_miss_is_boolean_witness :
  misses "a" 11 short_lived ∧
  min_int64 ≤ Misses (Stats short_lived) < max_int64 ∧
  (Get "a" 11 short_lived).1 = (nil, false) ∧
  Cache (Get "a" 11 short_lived).2 = Cache short_lived ∧
  Misses (Stats (Get "a" 11 short_lived).2) = Misses (Stats short_lived) + 1.
Proof.
  assert (Hmiss : misses "a" 11 short_lived).
  { right. exists (mkCacheValue (Some 7) 10 0). split; [reflexivity |].
    vm_compute. reflexivity. }
  assert (Hrange : min_int64 ≤ Misses (Stats short_lived) < max_int64).
  { vm_compute. split; [discriminate | reflexivity]. }
  split; [exact Hmiss |]. split; [exact Hrange |].
  destruct (Get_miss_is_boolean "a" 11 short_lived Hmiss Hrange)
    as (H1 & H2 & H3 & _).
  split; [exact H1 |]. split; [exact H2 | exact H3].
Defined.

Lemma ClearByTTL_sweeps_expired_witness :
  iterates (Cache mixed) [("a", entry_a); ("b", mkCacheValue (Some 2) 3 2)] ∧
  min_int64 ≤ Evictions (Stats mixed) ∧
  Evictions (Stats mixed)
  + len (filter (λ kv, TTL kv.2 < Sub 11 (LastAccess kv.2)) (Cache mixed))
    ≤ max_int64 ∧
  Cache (ClearByTTL 11 [("a", entry_a); ("b", mkCacheValue (Some 2) 3 2)] mixed)
    !! "b" = None ∧
  Cache (ClearByTTL 11 [("a", entry_a); ("b", mkCacheValue (Some 2) 3 2)] mixed)
    !! "a" = Some (mkCacheValue (Some 1) 10 1) ∧
  Evictions
    (Stats (ClearByTTL 11 [("a", entry_a); ("b", mkCacheValue (Some 2) 3 2)]
              mixed)) = 1 ∧
  len (Cache (ClearByTTL 11 [("a", entry_a); ("b", mkCacheValue (Some 2) 3 2)]
                mixed)) = 1.
Proof.
  assert (Hit : iterates (Cache mixed)
                  [("a", entry_a); ("b", mkCacheValue (Some 2) 3 2)])
    by (unfold iterates; vm_compute; reflexivity).
  assert (Hlo : min_int64 ≤ Evictions (Stats mixed))
    by (vm_compute; discriminate).
  assert (Hhi : Evictions (Stats mixed)
                + len (filter (λ kv, TTL kv.2 < Sub 11 (LastAccess kv.2))
                         (Cache mixed)) ≤ max_int64)
    by (vm_compute; discriminate).
  split; [exact Hit |]. split; [exact Hlo |]. split; [exact Hhi |].
  destruct (ClearByTTL_sweeps_expired 11
              [("a", entry_a); ("b", mkCacheValue (Some 2) 3 2)] mixed
              Hit Hlo Hhi) as (Hgone & Hkept & _ & _ & Hev & Hdiff & _).
  assert (Hb : Cache mixed !! "b" = Some (mkCacheValue (Some 2) 3 2))
    by reflexivity.
  assert (Ha : Cache mixed !! "a" = Some (mkCacheValue (Some 1) 10 1))
    by reflexivity.
  assert (Hcount : Evictions (Stats mixed)
                   + len (filter (λ kv, TTL kv.2 < Sub 11 (LastAccess kv.2))
                            (Cache mixed)) = 1) by (by vm_compute).
  assert (Hsize : len (Cache mixed) = 2) by (by vm_compute).
  assert (Hzero : Evictions (Stats mixed) = 0) by reflexivity.
  split; [exact (Hgone "b" _ Hb eq_refl) |].
  split; [apply (Hkept "a" _ Ha); discriminate |].
  split; [exact (eq_trans Hev Hcount) |].
  rewrite Hev, Hcount, Hzero, Hsize in Hdiff. lia.
Defined.

Lemma counters_never_decrease_witness :
  trace_ok (NewCacheManager 2 10 1) short_trace ∧
  Z.of_nat (length short_trace) < 2 ^ 62 ∧
  0 ≤ Hits (Stats (run [OpSet "a" (Some 1) 1 1 []] (NewCacheManager 2 10 1)))
    ≤ Hits (Stats (run ([OpSet "a" (Some 1) 1 1 []] ++ [OpGet "a" 2])
                     (NewCacheManager 2 10 1))).
Proof.
  assert (Hok : trace_ok (NewCacheManager 2 10 1) short_trace).
  { simpl. split; [discriminate | done]. }
  assert (Hlen : Z.of_nat (length short_trace) < 2 ^ 62)
    by (vm_compute; reflexivity).
  split; [exact Hok |]. split; [exact Hlen |].
  destruct (counters_never_decrease 2 10 1 short_trace
    [OpSet "a" (Some 1) 1 1 []] (OpGet "a" 2) [OpGetStats] Hok Hlen eq_refl)
    as (H1 & _).
  exact H1.
Defined.

(** The ticking scenario meets the hypotheses of the capacity theorems. *)
Example ticking_within_capacity :
  len (Cache (run ticking (NewCacheManager 2 10 1))) ≤ 2 ∧
  len (Cache (run ticking (NewCacheManager 2 10 1))) = 2.
Proof.
  assert (Hok : trace_ok (NewCacheManager 2 10 1) ticking).
  { simpl. split_and!; try done; unfold iterates; vm_compute; reflexivity. }
  assert (Hclock : increasing_from 0 (clock (NewCacheManager 2 10 1) ticking)
                   = true) by (vm_compute; reflexivity).
  split.
  - apply (capacity_bound_ticking 2 10 1 0 ticking ticking []);
      [lia | done | done | by rewrite app_nil_r].
  - apply (Set_fills_to_capacity_ticking 2 10 1 0 ticking);
      [lia | done | done | repeat constructor | by vm_compute].
Qed.

(** * Further properties of the cache manager *)

(** ** Elapsed time *)

Lemma Sub_nonneg (t u : Time) : u ≤ t → 0 ≤ Sub t u.
Proof.
  intros Hle. unfold Sub.
  destruct (Z.ltb_spec (wrap64 (t - u)) 0) as [Hneg | Hpos]; simpl.
  - destruct (Z.ltb_spec u t) as [Hlt | Hge]; simpl.
    + unfold maxDuration, max_int64. lia.
    + assert (t = u) as -> by lia. rewrite Z.sub_diag in Hneg.
      replace (wrap64 0) with 0 in Hneg by (by vm_compute). lia.
  - destruct (Z.ltb_spec 0 (wrap64 (t - u))), (Z.ltb_spec t u); simpl; lia.
Qed.

(** On [int64] readings [Sub] is the difference clamped to [Duration]. *)
Lemma Sub_clamp (t u : Time) :
  in_int64 t → in_int64 u →
  Sub t u = Z.max min_int64 (Z.min max_int64 (t - u)).
Proof.
  unfold in_int64, min_int64, max_int64. intros Ht Hu.
  destruct (Z_lt_le_dec (2 ^ 63 - 1) (t - u)) as [Hhigh | Hnothigh].
  - unfold Sub, wrap64.
    replace ((t - u + 2 ^ 63) mod 2 ^ 64) with (t - u + 2 ^ 63 - 2 ^ 64)
      by (apply (Z.mod_unique_pos _ _ 1); lia).
    destruct (Z.ltb_spec (t - u + 2 ^ 63 - 2 ^ 64 - 2 ^ 63) 0); [| lia].
    destruct (Z.ltb_spec u t); [| lia]. simpl.
    unfold maxDuration, max_int64. lia.
  - destruct (Z_lt_le_dec (t - u) (- 2 ^ 63)) as [Hlow | Hnotlow].
    + unfold Sub, wrap64.
      replace ((t - u + 2 ^ 63) mod 2 ^ 64) with (t - u + 2 ^ 63 + 2 ^ 64)
        by (apply (Z.mod_unique_pos _ _ (-1)); lia).
      destruct (Z.ltb_spec (t - u + 2 ^ 63 + 2 ^ 64 - 2 ^ 63) 0); [lia |].
      simpl. destruct (Z.ltb_spec 0 (t - u + 2 ^ 63 + 2 ^ 64 - 2 ^ 63)); [| lia].
      destruct (Z.ltb_spec t u); [| lia]. simpl.
      unfold minDuration, min_int64. lia.
    + rewrite Sub_exact by (unfold in_int64, min_int64, max_int64; lia). lia.
Qed.

Lemma Sub_mono (t1 t2 u : Time) :
  in_int64 t1 → in_int64 t2 → in_int64 u → t1 ≤ t2 → Sub t1 u ≤ Sub t2 u.
Proof.
  intros H1 H2 Hu Hle. rewrite !Sub_clamp by done. lia.
Qed.

Section CacheMore.

Context {V : Type}.
Implicit Types (cm : CacheManager V) (m : gmap string (CacheValue V)).
Implicit Types (v : CacheValue V) (order : list (string * CacheValue V)).
Implicit Types (op : Op V) (ops : list (Op V)).

Lemma expired_mono (t1 t2 : Time) v :
  in_int64 t1 → in_int64 t2 → in_int64 (LastAccess v) → t1 ≤ t2 →
  expired t1 v = true → expired t2 v = true.
Proof.
  unfold expired. intros H1 H2 Hv Hle. rewrite !Z.ltb_lt.
  pose proof (Sub_mono t1 t2 (LastAccess v) H1 H2 Hv Hle). lia.
Qed.

Lemma evicts_false key cm :
  evicts key cm = false →
  is_Some (Cache cm !! key) ∨ len (Cache cm) ≠ Capacity cm.
Proof.
  unfold evicts. intros Hev. apply andb_false_iff in Hev as [Hin | Hne].
  - left. by apply negb_false_iff, bool_decide_eq_true in Hin.
  - right. by apply Z.eqb_neq.
Qed.

Lemma evicts_true key cm :
  evicts key cm = true →
  Cache cm !! key = None ∧ len (Cache cm) = Capacity cm.
Proof.
  unfold evicts. intros Hev. apply andb_true_iff in Hev as [Hnew Hfull].
  apply negb_true_iff, bool_decide_eq_false in Hnew.
  apply Z.eqb_eq in Hfull. split; [| done].
  destruct (Cache cm !! key) eqn:E; [exfalso; apply Hnew; eauto | done].
Qed.

(** ** Storing and reading back *)

(** X1. A [Get] of a key at reading [t], after [SetWithTTL] stored it at
    reading [now], returns the stored value when [t - now <= ttl] and
    [(nil, false)] otherwise, whether or not the store evicted; [Set] does
    the same with [DefaultTTL]. The difference of the readings fits a
    [Duration]. *)
Theorem store_then_Get key (value : any V) (ttl : Duration)
    (t_lru now t : Time) order cm :
  in_int64 (t - now) →
  (Get key t (SetWithTTL key value ttl t_lru now order cm)).1
    = (if ttl <? t - now then (nil, false) else (value, true)) ∧
  (Get key t (Set_ key value t_lru now order cm)).1
    = (if DefaultTTL cm <? t - now then (nil, false) else (value, true)).
Proof.
  intros Hr. unfold SetWithTTL, Set_, Get. rewrite !store_lookup.
  unfold expired. simpl. rewrite (Sub_exact _ _ Hr).
  split; by destruct (_ <? _).
Qed.

(** X2. An entry stored with a negative TTL is never returned: every [Get]
    at a reading not before the one stored with it misses. *)
Theorem negative_TTL_never_found key (value : any V) (ttl : Duration)
    (t_lru now t : Time) order cm :
  ttl < 0 → now ≤ t →
  (Get key t (SetWithTTL key value ttl t_lru now order cm)).1 = (nil, false).
Proof.
  intros Hneg Hle. rewrite Get_miss; [done |]. right.
  eexists. split; [apply store_lookup |]. simpl.
  pose proof (Sub_nonneg t now Hle). lia.
Qed.

(** X3. [Set] and [SetWithTTL] never alter or add the entry of another key
    and never shrink the map: it keeps its size or grows by one. [Hits] and
    [Misses] stay as they were. *)
Theorem store_frame key (value : any V) (ttl : Duration) (t_lru now : Time)
    order cm :
  let cm' := store key value ttl t_lru now order cm in
  (∀ k v, k ≠ key → Cache cm' !! k = Some v → Cache cm !! k = Some v) ∧
  len (Cache cm) ≤ len (Cache cm') ≤ len (Cache cm) + 1 ∧
  Hits (Stats cm') = Hits (Stats cm) ∧
  Misses (Stats cm') = Misses (Stats cm).
Proof.
  intros cm'. subst cm'. destruct (evicts key cm) eqn:Hev.
  - apply evicts_true in Hev as [Hnew Hfull].
    rewrite (store_evict _ _ _ _ _ _ _ Hnew Hfull). simpl.
    set (victim := (lru_scan order t_lru "").2).
    split_and!; try done.
    + intros k v Hne. rewrite lookup_insert_ne by done.
      rewrite lookup_delete. by case_decide.
    + rewrite len_insert_None
        by (rewrite lookup_delete; by case_decide).
      destruct (Cache cm !! victim) eqn:Hv.
      * rewrite len_delete_Some by eauto. lia.
      * rewrite delete_id by done. lia.
    + rewrite len_insert_None
        by (rewrite lookup_delete; by case_decide).
      pose proof (len_delete_le (Cache cm) victim). lia.
  - apply evicts_false in Hev.
    rewrite (store_no_evict _ _ _ _ _ _ _ Hev). simpl.
    pose proof (len_insert_le (Cache cm) key (mkCacheValue value ttl now)).
    split_and!; try done; try lia.
    intros k v Hne. by rewrite lookup_insert_ne.
Qed.

(** X4. With [Capacity = 0] a [Set] into the empty map calls [lru] on
    nothing: an eviction is counted and the entry is stored all the same. *)
Theorem zero_capacity_first_Set key (value : any V) (t_lru now : Time)
    order cm :
  Capacity cm = 0 → Cache cm = ∅ →
  Cache (Set_ key value t_lru now order cm)
    = {[ key := mkCacheValue value (DefaultTTL cm) now ]} ∧
  Evictions (Stats (Set_ key value t_lru now order cm))
    = AddInt64 (Evictions (Stats cm)) 1.
Proof.
  intros Hcap Hempty. unfold Set_.
  rewrite store_evict.
  - simpl. rewrite Hempty, delete_empty. done.
  - by rewrite Hempty, lookup_empty.
  - by rewrite Hempty, len_empty.
Qed.

(** X5. Storing a new key without eviction and deleting it again gives
    the manager back as it was. *)
Theorem store_then_Delete key (value : any V) (ttl : Duration)
    (t_lru now : Time) order cm :
  Cache cm !! key = None → len (Cache cm) ≠ Capacity cm →
  Delete key (store key value ttl t_lru now order cm) = cm.
Proof.
  intros Hnew Hroom.
  rewrite (store_no_evict _ _ _ _ _ _ _ (or_intror Hroom)).
  unfold Delete. simpl. rewrite lookup_insert_eq. unfold with_Cache. simpl.
  rewrite delete_insert_id by done. by destruct cm.
Qed.

(** X6. After [Delete] of a key a [Get] of it misses, and after [Clear] a
    [Get] of any key misses; the miss is counted and the map stays as the
    removal left it. *)
Theorem removed_then_Get key (now : Time) cm :
  Get key now (Delete key cm)
    = ((nil, false), with_Stats (recordMiss (Stats cm)) (Delete key cm)) ∧
  Get key now (Clear cm)
    = ((nil, false), with_Stats (recordMiss (Stats cm)) (Clear cm)).
Proof.
  split.
  - rewrite Get_miss.
    + by rewrite Delete_Stats.
    + left. rewrite Delete_Cache. apply lookup_delete_eq.
  - rewrite Get_miss; [done |]. left. apply lookup_empty.
Qed.

(** ** The sweep, without its iteration order *)

Lemma CacheManager_eq cm1 cm2 :
  Cache cm1 = Cache cm2 → Capacity cm1 = Capacity cm2 →
  DefaultTTL cm1 = DefaultTTL cm2 → CleanupTick cm1 = CleanupTick cm2 →
  Hits (Stats cm1) = Hits (Stats cm2) →
  Misses (Stats cm1) = Misses (Stats cm2) →
  Evictions (Stats cm1) = Evictions (Stats cm2) →
  Size (Stats cm1) = Size (Stats cm2) →
  cm1 = cm2.
Proof.
  destruct cm1 as [c1 k1 d1 t1 [h1 m1 e1 s1]], cm2 as [c2 k2 d2 t2 [h2 m2 e2 s2]].
  simpl. by intros -> -> -> -> -> -> -> ->.
Qed.

Lemma bump_add (a b : nat) (x : Z) : bump a (bump b x) = bump (a + b) x.
Proof. unfold bump. by rewrite Nat.iter_add. Qed.

Lemma ClearByTTL_loop_bump (now : Time) order cm :
  Evictions (Stats (ClearByTTL_loop now order cm))
  = bump (length (filter (stale now) order)) (Evictions (Stats cm)).
Proof.
  revert cm. induction order as [| [k v] rest IH]; intros cm; [done |].
  rewrite filter_cons. cbn [ClearByTTL_loop].
  destruct (decide (stale now (k, v))) as [Hst | Hst]; unfold stale in Hst;
    simpl in Hst.
  - rewrite Hst, IH, Delete_Stats. simpl length. unfold bump.
    by rewrite Nat.iter_succ_r.
  - apply not_true_is_false in Hst. by rewrite Hst, IH.
Qed.

Lemma ClearByTTL_loop_filter (now : Time) order cm :
  iterates (Cache cm) order →
  Cache (ClearByTTL_loop now order cm) = filter (fresh now) (Cache cm).
Proof.
  intros Hit. apply map_eq. intros k. rewrite map_lookup_filter.
  destruct (Cache cm !! k) as [v |] eqn:Hk; simpl.
  - destruct (decide (fresh now (k, v))) as [Hf | Hf].
    + rewrite option_guard_True by done. unfold fresh in Hf. simpl in Hf.
      rewrite ClearByTTL_loop_kept; [done |].
      intros v' Hv'. apply (iterates_elem _ _ _ _ Hit) in Hv'. congruence.
    + rewrite option_guard_False by done. unfold fresh in Hf. simpl in Hf.
      apply not_false_is_true in Hf.
      apply (ClearByTTL_loop_expired _ _ _ _ v); [| done].
      by apply (iterates_elem _ _ _ _ Hit).
  - by apply ClearByTTL_loop_absent.
Qed.

(** The sweep computes [swept], whatever the order of the iteration. *)
Lemma ClearByTTL_swept (now : Time) order cm :
  iterates (Cache cm) order → ClearByTTL now order cm = swept now cm.
Proof.
  intros Hit. unfold ClearByTTL.
  destruct (ClearByTTL_loop_frame now order cm) as (Hc & Hd & Ht & Hh & Hm & Hs).
  apply CacheManager_eq; try done.
  - by apply ClearByTTL_loop_filter.
  - rewrite ClearByTTL_loop_bump. simpl. f_equal.
    apply Nat2Z.inj. rewrite (iterates_filter_length (stale now) _ _ Hit).
    done.
Qed.

Lemma timed_swept (now : Time) cm : timed cm → timed (swept now cm).
Proof.
  intros Ht k v Hk. simpl in Hk.
  apply map_lookup_filter_Some in Hk as [Hk _]. by apply (Ht k).
Qed.

Lemma swept_swept (t1 t2 : Time) cm :
  timed cm → in_int64 t1 → in_int64 t2 → t1 ≤ t2 →
  swept t2 (swept t1 cm) = swept t2 cm.
Proof.
  intros Ht H1 H2 Hle.
  assert (Hff : filter (fresh t2) (filter (fresh t1) (Cache cm))
                = filter (fresh t2) (Cache cm)).
  { apply map_filter_filter_l. intros k v Hk Hf2. unfold fresh in *. simpl in *.
    destruct (expired t1 v) eqn:Hexp; [| done].
    rewrite (expired_mono t1 t2 v H1 H2 (Ht k v Hk) Hle Hexp) in Hf2. done. }
  apply CacheManager_eq; try done.
  cbn [swept Cache Stats Evictions]. rewrite bump_add. f_equal.
  pose proof (len_stale_fresh t1 (Cache cm)) as E1.
  pose proof (len_stale_fresh t2 (Cache cm)) as E2.
  pose proof (len_stale_fresh t2 (filter (fresh t1) (Cache cm))) as E3.
  rewrite Hff in E3. unfold len in *. lia.
Qed.

(** X7. The result of a sweep does not depend on the order in which
    [range] produces the entries: any two orders give the same manager. *)
Theorem ClearByTTL_any_order (now : Time)
    (order1 order2 : list (string * CacheValue V)) cm :
  iterates (Cache cm) order1 → iterates (Cache cm) order2 →
  ClearByTTL now order1 cm = ClearByTTL now order2 cm.
Proof. intros H1 H2. by rewrite !ClearByTTL_swept. Qed.

(** X8. A sweep followed by a sweep at the same or a later reading, with
    no call in between, leaves the manager that the later sweep alone
    leaves: nothing is removed or counted twice. The readings and the
    stored [LastAccess] values are [int64]. *)
Theorem ClearByTTL_twice (t1 t2 : Time)
    (order1 order2 order : list (string * CacheValue V)) cm :
  timed cm → in_int64 t1 → in_int64 t2 → t1 ≤ t2 →
  iterates (Cache cm) order1 →
  iterates (Cache (ClearByTTL t1 order1 cm)) order2 →
  iterates (Cache cm) order →
  ClearByTTL t2 order2 (ClearByTTL t1 order1 cm) = ClearByTTL t2 order cm.
Proof.
  intros Ht H1 H2 Hle Ho1 Ho2 Ho.
  rewrite (ClearByTTL_swept t2 order2) by done.
  rewrite (ClearByTTL_swept t1 order1), (ClearByTTL_swept t2 order) by done.
  by apply swept_swept.
Qed.

(** X9. A sweep never changes what a [Get] at the same or a later reading
    returns: the entries it removes are those that [Get] would refuse. *)
Theorem ClearByTTL_unseen_by_Get key (now t : Time) order cm :
  timed cm → in_int64 now → in_int64 t → now ≤ t →
  iterates (Cache cm) order →
  (Get key t (ClearByTTL now order cm)).1 = (Get key t cm).1.
Proof.
  intros Ht Hn Htr Hle Hit. rewrite (ClearByTTL_swept now order cm Hit).
  unfold Get. cbn [swept Cache]. rewrite map_lookup_filter.
  destruct (Cache cm !! key) as [v |] eqn:Hk; [| done]. simpl.
  destruct (decide (fresh now (key, v))) as [Hf | Hf].
  - rewrite option_guard_True by done. simpl. by destruct (expired t v).
  - rewrite option_guard_False by done. simpl.
    unfold fresh in Hf. simpl in Hf. apply not_false_is_true in Hf.
    by rewrite (expired_mono now t v Hn Htr (Ht key v Hk) Hle Hf).
Qed.

(** ** The victim of [lru] *)

(** X10. When one entry is strictly older than the reading of [lru] and
    than every other entry, [lru] deletes that entry, whatever the order
    of the iteration. *)
Theorem lru_unique_oldest (now : Time) order cm k v :
  iterates (Cache cm) order →
  Cache cm !! k = Some v → LastAccess v < now →
  (∀ k' v', k' ≠ k → Cache cm !! k' = Some v' → LastAccess v < LastAccess v') →
  Cache (lru now order cm) = delete k (Cache cm) ∧
  Evictions (Stats (lru now order cm)) = AddInt64 (Evictions (Stats cm)) 1.
Proof.
  intros Hit Hk Hold Huniq. split; [| done].
  destruct (lru_oldest now order cm Hit) as (k1 & v1 & Hk1 & Hmin & ->).
  { by exists k, v. }
  destruct (decide (k1 = k)) as [-> | Hne]; [done |].
  pose proof (Huniq k1 v1 Hne Hk1). pose proof (Hmin k v Hk). lia.
Qed.

Lemma lru_scan_app (order1 order2 : list (string * CacheValue V))
    (t0 : Time) (k0 : string) :
  lru_scan (order1 ++ order2) t0 k0
  = lru_scan order2 (lru_scan order1 t0 k0).1 (lru_scan order1 t0 k0).2.
Proof.
  revert t0 k0. induction order1 as [| [k v] rest IH]; intros t0 k0; simpl;
    [done |].
  destruct (Compare (LastAccess v) t0 =? -1); apply IH.
Qed.

(** X19. Among entries tied for the oldest [LastAccess], [lru] deletes the
    one that [range] produces first: the entry deleted is the first in the
    iteration that is strictly older than the reading and than everything
    produced before it, and as old as everything produced after it. *)
Theorem lru_first_oldest_wins (now : Time)
    (before after : list (string * CacheValue V)) k v cm :
  LastAccess v < now →
  Forall (λ kv, LastAccess v < LastAccess kv.2) before →
  Forall (λ kv, LastAccess v ≤ LastAccess kv.2) after →
  Cache (lru now (before ++ (k, v) :: after) cm) = delete k (Cache cm).
Proof.
  intros Hold Hbefore Hafter. rewrite lru_Cache. f_equal.
  rewrite lru_scan_app. cbn [lru_scan]. rewrite Compare_lt.
  destruct (lru_scan_spec before now "") as [_ Hcase].
  assert (Hlt : LastAccess v < (lru_scan before now "").1).
  { destruct Hcase as [[-> _] | [_ (v' & Hin & <-)]]; [done |].
    rewrite Forall_forall in Hbefore. apply (Hbefore _ Hin). }
  rewrite (proj2 (Z.ltb_lt _ _) Hlt).
  destruct (lru_scan_spec after (LastAccess v) k)
    as [_ [[-> _] | [Hlt' (v' & Hin & Hv')]]]; [done |].
  rewrite Forall_forall in Hafter. specialize (Hafter _ Hin). simpl in Hafter.
  lia.
Qed.

(** ** Executions *)

Lemma exec_config op cm :
  Capacity (exec op cm) = Capacity cm ∧
  DefaultTTL (exec op cm) = DefaultTTL cm ∧
  CleanupTick (exec op cm) = CleanupTick cm.
Proof.
  destruct op as [key value t_lru now order
    | key value ttl t_lru now order | key now | key | | now order |];
    cbn [exec]; try done.
  - unfold Set_, store. by destruct (evicts key cm).
  - unfold SetWithTTL, store. by destruct (evicts key cm).
  - unfold Get. destruct (Cache cm !! key) as [v |]; [| done].
    by destruct (expired now v).
  - unfold Delete. by destruct (Cache cm !! key).
  - destruct (ClearByTTL_loop_frame now order cm) as (? & ? & ? & _). done.
Qed.

(** X11. No call changes the configuration: along every execution
    [Capacity], [DefaultTTL] and [CleanupTick] are those the manager
    started with. *)
Theorem run_keeps_configuration ops cm :
  Capacity (run ops cm) = Capacity cm ∧
  DefaultTTL (run ops cm) = DefaultTTL cm ∧
  CleanupTick (run ops cm) = CleanupTick cm.
Proof.
  revert cm. induction ops as [| op rest IH]; intros cm; [done |].
  simpl. destruct (IH (exec op cm)) as (-> & -> & ->). apply exec_config.
Qed.

Lemma gets_cons op ops :
  gets (op :: ops) = (if is_Get op then 1 else 0) + gets ops.
Proof.
  unfold gets. rewrite filter_cons.
  destruct (decide (is_Get op = true)) as [E | E].
  - rewrite E. simpl length. lia.
  - apply not_true_is_false in E. rewrite E. lia.
Qed.

Lemma gets_nonneg ops : 0 ≤ gets ops.
Proof. unfold gets. lia. Qed.

Lemma exec_reads op cm :
  0 ≤ Hits (Stats cm) → 0 ≤ Misses (Stats cm) →
  (is_Get op = true → Hits (Stats cm) + Misses (Stats cm) < max_int64) →
  0 ≤ Hits (Stats (exec op cm)) ∧ 0 ≤ Misses (Stats (exec op cm)) ∧
  Hits (Stats (exec op cm)) + Misses (Stats (exec op cm))
  = Hits (Stats cm) + Misses (Stats cm) + (if is_Get op then 1 else 0).
Proof.
  intros Hh Hm Hsum.
  destruct op as [key value t_lru now order
    | key value ttl t_lru now order | key now | key | | now order |];
    cbn [exec is_Get] in *.
  - unfold Set_, store. destruct (evicts key cm); simpl; lia.
  - unfold SetWithTTL, store. destruct (evicts key cm); simpl; lia.
  - specialize (Hsum eq_refl).
    assert (Hhit : AddInt64 (Hits (Stats cm)) 1 = Hits (Stats cm) + 1)
      by (apply AddInt64_exact; unfold in_int64, min_int64, max_int64 in *; lia).
    assert (Hmiss : AddInt64 (Misses (Stats cm)) 1 = Misses (Stats cm) + 1)
      by (apply AddInt64_exact; unfold in_int64, min_int64, max_int64 in *; lia).
    unfold Get.
    destruct (Cache cm !! key) as [v |]; [destruct (expired now v) |]; simpl;
      rewrite ?Hhit, ?Hmiss; lia.
  - rewrite Delete_Stats. lia.
  - unfold Clear. simpl. lia.
  - destruct (ClearByTTL_loop_frame now order cm) as (_ & _ & _ & Hh' & Hm' & _).
    unfold ClearByTTL. rewrite Hh', Hm'. lia.
  - simpl. lia.
Qed.

Lemma run_reads ops cm :
  0 ≤ Hits (Stats cm) → 0 ≤ Misses (Stats cm) →
  Hits (Stats cm) + Misses (Stats cm) + gets ops ≤ max_int64 →
  0 ≤ Hits (Stats (run ops cm)) ∧ 0 ≤ Misses (Stats (run ops cm)) ∧
  Hits (Stats (run ops cm)) + Misses (Stats (run ops cm))
  = Hits (Stats cm) + Misses (Stats cm) + gets ops.
Proof.
  revert cm. induction ops as [| op rest IH]; intros cm Hh Hm Hsum.
  - unfold gets. simpl. lia.
  - rewrite gets_cons in *. simpl run. pose proof (gets_nonneg rest).
    destruct (exec_reads op cm Hh Hm) as (Hh' & Hm' & Heq).
    { intros E. rewrite E in Hsum. lia. }
    destruct (IH (exec op cm) Hh' Hm') as (? & ? & ?); lia.
Qed.

(** X12. Every [Get] is counted exactly once, as a hit or as a miss, and
    nothing else moves these counters: after an execution from a new
    manager, [Hits + Misses] is the number of [Get] calls. That number fits
    an [int64]. *)
Theorem Hits_plus_Misses_counts_Gets (maxSize : Z)
    (defaultTTL cleanupTick : Duration) ops :
  gets ops ≤ max_int64 →
  Hits (Stats (run ops (NewCacheManager maxSize defaultTTL cleanupTick)))
  + Misses (Stats (run ops (NewCacheManager maxSize defaultTTL cleanupTick)))
  = gets ops.
Proof.
  intros Hfit.
  destruct (run_reads ops (NewCacheManager maxSize defaultTTL cleanupTick))
    as (_ & _ & Heq); simpl; [lia | lia | lia |].
  rewrite Heq. simpl. lia.
Qed.

(** ** Storing without eviction *)

Lemma stored_store_cons op ops key :
  stored_key op = [key] → stored (op :: ops) = {[key]} ∪ stored ops.
Proof.
  intros Hk. rewrite stored_cons, Hk. simpl.
  by rewrite (right_id_L ∅ (∪)).
Qed.

Lemma is_store_exec op cm :
  is_store op = true →
  ∃ key value ttl t_lru now order,
    stored_key op = [key] ∧
    exec op cm = store key value ttl t_lru now order cm.
Proof.
  destruct op as [key value t_lru now order
    | key value ttl t_lru now order | | | | |]; try done; intros _.
  - by exists key, value, (DefaultTTL cm), t_lru, now, order.
  - by exists key, value, ttl, t_lru, now, order.
Qed.

Lemma store_no_evict_dom key (value : any V) (ttl : Duration)
    (t_lru now : Time) order cm :
  is_Some (Cache cm !! key) ∨ len (Cache cm) ≠ Capacity cm →
  Stats (store key value ttl t_lru now order cm) = Stats cm ∧
  Capacity (store key value ttl t_lru now order cm) = Capacity cm ∧
  dom (Cache (store key value ttl t_lru now order cm))
    = dom (Cache cm) ∪ {[key]}.
Proof.
  intros Hc. rewrite (store_no_evict _ _ _ _ _ _ _ Hc). simpl.
  split_and!; try done. rewrite dom_insert_L. apply (comm_L (∪)).
Qed.

(** X13. Storing keys into a manager that has room for all of them never
    calls [lru], whatever the clock shows: no counter moves and every key
    stored is in the map at the end. *)
Theorem fill_within_capacity_never_evicts ops cm :
  Forall (λ op, is_store op = true) ops →
  Z.of_nat (size (dom (Cache cm) ∪ stored ops)) ≤ Capacity cm →
  Stats (run ops cm) = Stats cm ∧
  dom (Cache (run ops cm)) = dom (Cache cm) ∪ stored ops.
Proof.
  revert cm. induction ops as [| op rest IH]; intros cm Hall Hroom.
  - simpl. by rewrite stored_nil, (right_id_L ∅ (∪)).
  - apply Forall_cons in Hall as [Hop Hall].
    destruct (is_store_exec op cm Hop)
      as (key & value & ttl & t_lru & now & order & Hkey & Hexec).
    rewrite (stored_store_cons _ _ _ Hkey) in *. simpl run. rewrite Hexec.
    assert (Hcase : is_Some (Cache cm !! key) ∨ len (Cache cm) ≠ Capacity cm).
    { destruct (Cache cm !! key) as [v |] eqn:Hk; [left; eauto | right].
      assert (Hfresh : key ∉ dom (Cache cm)) by by apply not_elem_of_dom.
      assert (Hsub : dom (Cache cm) ∪ {[key]}
                     ⊆ dom (Cache cm) ∪ ({[key]} ∪ stored rest))
        by apply union_mono_l, union_subseteq_l.
      apply subseteq_size in Hsub.
      rewrite size_union, size_singleton, size_dom in Hsub
        by by apply disjoint_singleton_r.
      unfold len. lia. }
    destruct (store_no_evict_dom key value ttl t_lru now order cm Hcase)
      as (Hst & Hcap & Hdom).
    destruct (IH (store key value ttl t_lru now order cm) Hall) as [-> ->].
    + rewrite Hdom, Hcap. by rewrite <- (assoc_L (∪)).
    + rewrite Hst, Hdom. by rewrite <- (assoc_L (∪)).
Qed.

(** X14. [lru] is called only when the map holds exactly [Capacity]
    entries: a manager that holds more than that, or whose [Capacity] is
    negative, never evicts on a store. No counter moves, the stored keys
    are added and the map stays above [Capacity]. *)
Theorem over_capacity_never_evicts ops cm :
  Forall (λ op, is_store op = true) ops →
  Capacity cm < len (Cache cm) →
  Stats (run ops cm) = Stats cm ∧
  dom (Cache (run ops cm)) = dom (Cache cm) ∪ stored ops ∧
  Capacity cm < len (Cache (run ops cm)).
Proof.
  revert cm. induction ops as [| op rest IH]; intros cm Hall Hover.
  - simpl. by rewrite stored_nil, (right_id_L ∅ (∪)).
  - apply Forall_cons in Hall as [Hop Hall].
    destruct (is_store_exec op cm Hop)
      as (key & value & ttl & t_lru & now & order & Hkey & Hexec).
    rewrite (stored_store_cons _ _ _ Hkey). simpl run. rewrite Hexec.
    assert (Hcase : is_Some (Cache cm !! key) ∨ len (Cache cm) ≠ Capacity cm)
      by (right; lia).
    destruct (store_no_evict_dom key value ttl t_lru now order cm Hcase)
      as (Hst & Hcap & Hdom).
    assert (Hlen : len (Cache cm)
                   ≤ len (Cache (store key value ttl t_lru now order cm))).
    { rewrite (store_no_evict _ _ _ _ _ _ _ Hcase). simpl.
      apply len_insert_le. }
    destruct (IH (store key value ttl t_lru now order cm) Hall)
      as (-> & -> & Hover'); [lia |].
    rewrite Hst, Hdom, <- (assoc_L (∪)). split_and!; [done | done | lia].
Qed.

(** ** The cleanup goroutine *)

Lemma cleanup_loop_Done (ticks : list (Time * list (string * CacheValue V)))
    (rest : list (Signal V)) cm :
  cleanup_loop (ticking_signals ticks ++ Done :: rest) cm
  = cleanup_loop (ticking_signals ticks) cm.
Proof.
  revert cm. induction ticks as [| [t o] more IH]; intros cm; simpl; [done |].
  apply IH.
Qed.

Lemma cleanup_loop_swept (ticks : list (Time * list (string * CacheValue V)))
    (t_last : Time) cm :
  timed cm → in_int64 t_last → ticks_ok cm ticks →
  Forall (λ tick, in_int64 tick.1 ∧ tick.1 ≤ t_last) ticks →
  timed (cleanup_loop (ticking_signals ticks) cm) ∧
  swept t_last (cleanup_loop (ticking_signals ticks) cm) = swept t_last cm.
Proof.
  revert cm. induction ticks as [| [t o] more IH]; intros cm Ht Hl Hok Hall;
    [done |].
  destruct Hok as [Hit Hok]. apply Forall_cons in Hall as [[Hr Hle] Hall].
  simpl in *. rewrite (ClearByTTL_swept t o cm Hit) in *.
  destruct (IH (swept t cm)) as [Htimed Heq]; try done.
  { by apply timed_swept. }
  split; [done |]. rewrite Heq. by apply swept_swept.
Qed.

Lemma ticks_ok_app (ticks1 ticks2 : list (Time * list (string * CacheValue V)))
    cm :
  ticks_ok cm (ticks1 ++ ticks2) ↔
  ticks_ok cm ticks1 ∧
  ticks_ok (cleanup_loop (ticking_signals ticks1) cm) ticks2.
Proof.
  revert cm. induction ticks1 as [| [t o] more IH]; intros cm; simpl;
    [tauto |].
  rewrite IH. tauto.
Qed.

Lemma cleanup_loop_app (ticks1 ticks2 : list (Time * list (string * CacheValue V)))
    cm :
  cleanup_loop (ticking_signals (ticks1 ++ ticks2)) cm
  = cleanup_loop (ticking_signals ticks2)
      (cleanup_loop (ticking_signals ticks1) cm).
Proof.
  revert cm. induction ticks1 as [| [t o] more IH]; intros cm; simpl; [done |].
  apply IH.
Qed.

(** X15. With a positive [CleanupTick], the goroutine of [StartCleanup],
    ticking at readings none of which is later than the last one and then
    cancelled, leaves the manager that a single sweep at the last tick
    leaves; what arrives after the cancellation has no effect. No other
    call runs in between, and the readings and stored [LastAccess] values
    are [int64]. *)
Theorem StartCleanup_is_last_sweep
    (ticks : list (Time * list (string * CacheValue V)))
    (t_last : Time) (order_last : list (string * CacheValue V))
    (after : list (Signal V)) cm :
  0 < CleanupTick cm → timed cm → in_int64 t_last →
  ticks_ok cm (ticks ++ [(t_last, order_last)]) →
  Forall (λ tick, in_int64 tick.1 ∧ tick.1 ≤ t_last) ticks →
  StartCleanup
    (ticking_signals (ticks ++ [(t_last, order_last)]) ++ Done :: after) cm
  = Some (ClearByTTL t_last (map_to_list (Cache cm)) cm).
Proof.
  intros Hpos Ht Hl Hok Hall. unfold StartCleanup, NewTicker.
  destruct (Z.leb_spec (CleanupTick cm) 0) as [Hbad | _]; [lia |].
  f_equal. rewrite cleanup_loop_Done, cleanup_loop_app.
  apply ticks_ok_app in Hok as [Hok1 [Hlast _]].
  destruct (cleanup_loop_swept ticks t_last cm Ht Hl Hok1 Hall) as [_ Heq].
  simpl. rewrite (ClearByTTL_swept _ _ _ Hlast), Heq.
  symmetry. apply ClearByTTL_swept, iterates_map_to_list.
Qed.

(** [StartCleanup] panics in [time.NewTicker] exactly when [CleanupTick]
    is not positive, a value that [NewCacheManager] accepts. *)
Lemma StartCleanup_panics_iff (signals : list (Signal V))
    (maxSize : Z) (defaultTTL cleanupTick : Duration) :
  StartCleanup signals (NewCacheManager maxSize defaultTTL cleanupTick) = None
  ↔ cleanupTick ≤ 0.
Proof.
  unfold StartCleanup, NewTicker. simpl.
  destruct (Z.leb_spec cleanupTick 0); split; try done; lia.
Qed.

End CacheMore.

(** * The rate limiter *)

Lemma quot_one (r : Z) : r ≠ 1 → r ≠ 0 → Z.quot 1 r ≤ 0.
Proof.
  intros H1 H0. destruct (Z_lt_le_dec r 0) as [Hneg | Hpos].
  - replace r with (- (- r)) by lia. rewrite Z.quot_opp_r by lia.
    pose proof (Z.quot_pos 1 (- r)). lia.
  - rewrite Z.quot_small; lia.
Qed.

(** X16. [Wait] gets past the creation of its ticker only when [Rate] is
    1, with an interval of one second: [1.0/rl.Rate] is an integer
    division, so a larger [Rate] gives the interval 0 and a negative one a
    negative interval, on which [time.NewTicker] panics, and [Rate = 0]
    panics in the division. *)
Theorem Wait_ticker_needs_rate_one (rl : RateLimiter.RateLimiter) :
  RateLimiter.Wait_ticker rl
  = if RateLimiter.Rate rl =? 1 then Some RateLimiter.Second else None.
Proof.
  unfold RateLimiter.Wait_ticker, RateLimiter.div_int.
  destruct (Z.eqb_spec (RateLimiter.Rate rl) 0) as [H0 | H0].
  - rewrite H0. done.
  - destruct (Z.eqb_spec (RateLimiter.Rate rl) 1) as [H1 | H1].
    + rewrite H1. by vm_compute.
    + pose proof (quot_one _ H1 H0) as Hq.
      assert (Hlow : -1 ≤ Z.quot 1 (RateLimiter.Rate rl)).
      { destruct (Z_lt_le_dec (RateLimiter.Rate rl) 0) as [Hneg | Hpos].
        - replace (RateLimiter.Rate rl) with (- (- RateLimiter.Rate rl)) by lia.
          rewrite Z.quot_opp_r by lia.
          assert (Z.quot 1 (- RateLimiter.Rate rl) ≤ 1); [| lia].
          apply Z.quot_le_upper_bound; lia.
        - pose proof (Z.quot_pos 1 (RateLimiter.Rate rl)). lia. }
      rewrite (wrap64_id (Z.quot 1 _))
        by (unfold in_int64, min_int64, max_int64; lia).
      rewrite wrap64_id
        by (unfold in_int64, min_int64, max_int64, RateLimiter.Second; lia).
      unfold NewTicker.
      destruct (Z.leb_spec (Z.quot 1 (RateLimiter.Rate rl) * RateLimiter.Second) 0);
        [done |]. unfold RateLimiter.Second in *. lia.
Qed.

(** X17. [WaitN] for fewer tokens than [Rate] panics: [n/rl.Rate] is 0,
    the ticker interval is 0 and [time.NewTicker] refuses it. *)
Theorem WaitN_below_rate_panics (n : Z) (rl : RateLimiter.RateLimiter) :
  0 ≤ n < RateLimiter.Rate rl →
  RateLimiter.WaitN_ticker n rl = None.
Proof.
  intros Hn. unfold RateLimiter.WaitN_ticker, RateLimiter.div_int.
  destruct (Z.eqb_spec (RateLimiter.Rate rl) 0) as [H0 | H0]; [done |].
  rewrite Z.quot_small by done. by vm_compute.
Qed.

Lemma ltb_seq_shift (c : Z) (n : nat) :
  map (λ i, Z.of_nat i <? c) (seq 1 n)
  = map (λ i, Z.of_nat i <? c - 1) (seq 0 n).
Proof.
  rewrite <- seq_shift, map_map. apply map_ext. intros i.
  destruct (Z.ltb_spec (Z.of_nat (S i)) c), (Z.ltb_spec (Z.of_nat i) (c - 1));
    lia.
Qed.

Lemma Allows_no_refill (calls : list (Z * Time)) (rl : RateLimiter.RateLimiter) :
  Forall (λ call, call.1 = 0) calls →
  RateLimiter.CurrentTokensNum rl ≤ RateLimiter.Capacity rl →
  in_int64 (RateLimiter.CurrentTokensNum rl) →
  (RateLimiter.Allows calls rl).1
  = map (λ i, Z.of_nat i <? RateLimiter.CurrentTokensNum rl)
      (seq 0 (length calls)).
Proof.
  revert rl. induction calls as [| [a t] rest IH]; intros rl Hall Hcap Hr;
    [done |].
  apply Forall_cons in Hall as [Ha Hall]. simpl in Ha. subst a.
  cbn [RateLimiter.Allows length seq map fst snd].
  unfold RateLimiter.Allow, RateLimiter.UpdateTokensNum.
  cbn [RateLimiter.CurrentTokensNum RateLimiter.Capacity RateLimiter.Rate
       RateLimiter.LastUpdate].
  rewrite Z.add_0_r, (wrap64_id _ Hr), Z.min_l by done.
  rewrite ltb_seq_shift.
  destruct (Z.leb_spec 1 (RateLimiter.CurrentTokensNum rl)) as [Hone | Hnone];
    cbn [fst snd].
  - assert (Hr' : in_int64 (RateLimiter.CurrentTokensNum rl - 1))
      by (unfold in_int64, min_int64, max_int64 in *; lia).
    rewrite IH; cbn [RateLimiter.CurrentTokensNum RateLimiter.Capacity];
      rewrite ?(wrap64_id _ Hr'); try done; [| lia].
    f_equal. by destruct (Z.ltb_spec (Z.of_nat 0) (RateLimiter.CurrentTokensNum rl));
      [| lia].
  - rewrite IH; cbn [RateLimiter.CurrentTokensNum RateLimiter.Capacity];
      try done.
    f_equal.
    + destruct (Z.ltb_spec (Z.of_nat 0) (RateLimiter.CurrentTokensNum rl));
        [lia | done].
    + apply map_ext. intros i.
      destruct (Z.ltb_spec (Z.of_nat i) (RateLimiter.CurrentTokensNum rl)),
        (Z.ltb_spec (Z.of_nat i) (RateLimiter.CurrentTokensNum rl - 1)); lia.
Qed.

(** X18. After a refill of [a] tokens, consecutive [Allow] calls that find
    nothing more to add succeed exactly [min(CurrentTokensNum + a,
    Capacity)] times and are refused from then on: call number [i], from
    0, is allowed exactly when [i] is below that number. On a new limiter
    with [a = 0] the number is [Capacity]. The sum fits an [int]. *)
Theorem Allow_burst (a : Z) (t : Time) (calls : list (Z * Time))
    (rl : RateLimiter.RateLimiter) :
  in_int64 (RateLimiter.CurrentTokensNum rl + a) →
  in_int64 (RateLimiter.Capacity rl) →
  Forall (λ call, call.1 = 0) calls →
  (RateLimiter.Allows ((a, t) :: calls) rl).1
  = map (λ i, Z.of_nat i <?
               Z.min (RateLimiter.CurrentTokensNum rl + a)
                     (RateLimiter.Capacity rl))
      (seq 0 (S (length calls))).
Proof.
  intros Hsum Hcap Hall.
  set (m := Z.min (RateLimiter.CurrentTokensNum rl + a) (RateLimiter.Capacity rl)).
  assert (Hm : in_int64 m)
    by (unfold in_int64, min_int64, max_int64 in *; lia).
  cbn [RateLimiter.Allows length seq map fst snd].
  unfold RateLimiter.Allow, RateLimiter.UpdateTokensNum.
  cbn [RateLimiter.CurrentTokensNum RateLimiter.Capacity RateLimiter.Rate
       RateLimiter.LastUpdate].
  rewrite (wrap64_id _ Hsum). fold m. rewrite ltb_seq_shift.
  destruct (Z.leb_spec 1 m) as [Hone | Hnone]; cbn [fst snd].
  - assert (Hr' : in_int64 (m - 1))
      by (unfold in_int64, min_int64, max_int64 in *; lia).
    rewrite Allows_no_refill;
      cbn [RateLimiter.CurrentTokensNum RateLimiter.Capacity];
      rewrite ?(wrap64_id _ Hr'); try done; [| lia].
    f_equal. destruct (Z.ltb_spec (Z.of_nat 0) m); [done | lia].
  - rewrite Allows_no_refill;
      cbn [RateLimiter.CurrentTokensNum RateLimiter.Capacity]; try done;
      [| lia].
    f_equal.
    + destruct (Z.ltb_spec (Z.of_nat 0) m); [lia | done].
    + apply map_ext. intros i.
      destruct (Z.ltb_spec (Z.of_nat i) m), (Z.ltb_spec (Z.of_nat i) (m - 1));
        lia.
Qed.

(** * Instances of the further properties *)

Import Instances.

Lemma timed_mixed : timed mixed.
Proof.
  apply (bool_decide_unpack
           (map_Forall (λ _ v, in_int64 (LastAccess v)) (Cache mixed))).
  by vm_compute.
Defined.

Lemma store_then_Get_witness :
  in_int64 (5 - 1) ∧
  (Get "a" 5 (SetWithTTL "a" (Some 1) 10 1 1 [] two)).1 = (Some 1, true).
Proof.
  assert (Hr : in_int64 (5 - 1)) by (by vm_compute).
  split; [exact Hr |].
  exact (proj1 (store_then_Get "a" (Some 1) 10 1 1 5 [] two Hr)).
Defined.

Lemma negative_TTL_never_found_witness :
  -1 < 0 ∧ 1 ≤ 1 ∧
  (Get "a" 1 (SetWithTTL "a" (Some 1) (-1) 1 1 [] two)).1 = (nil, false).
Proof.
  assert (H1 : -1 < 0) by reflexivity.
  assert (H2 : 1 ≤ 1) by discriminate.
  split; [exact H1 |]. split; [exact H2 |].
  exact (negative_TTL_never_found "a" (Some 1) (-1) 1 1 1 [] two H1 H2).
Defined.

Lemma zero_capacity_first_Set_witness :
  Capacity none = 0 ∧ Cache none = ∅ ∧
  Evictions (Stats (Set_ "a" (Some 1) 1 1 [] none))
    = AddInt64 (Evictions (Stats none)) 1.
Proof.
  split; [reflexivity |]. split; [reflexivity |].
  exact (proj2 (zero_capacity_first_Set "a" (Some 1) 1 1 [] none
                  eq_refl eq_refl)).
Defined.

Lemma store_then_Delete_witness :
  Cache two_a !! "b" = None ∧ len (Cache two_a) ≠ Capacity two_a ∧
  Delete "b" (store "b" (Some 2) 10 2 2 [] two_a) = two_a.
Proof.
  assert (H1 : Cache two_a !! "b" = None) by reflexivity.
  assert (H2 : len (Cache two_a) ≠ Capacity two_a) by (by vm_compute).
  split; [exact H1 |]. split; [exact H2 |].
  exact (store_then_Delete "b" (Some 2) 10 2 2 [] two_a H1 H2).
Defined.

Lemma ClearByTTL_any_order_witness :
  iterates (Cache mixed) mixed_order ∧
  iterates (Cache mixed) mixed_reversed ∧
  ClearByTTL 8 mixed_order mixed = ClearByTTL 8 mixed_reversed mixed.
Proof.
  assert (H1 : iterates (Cache mixed) mixed_order)
    by (unfold iterates, mixed_order; reflexivity).
  assert (H2 : iterates (Cache mixed) mixed_reversed)
    by apply reverse_Permutation.
  split; [exact H1 |]. split; [exact H2 |].
  exact (ClearByTTL_any_order 8 mixed_order mixed_reversed mixed H1 H2).
Defined.

Lemma ClearByTTL_twice_witness :
  timed mixed ∧ in_int64 5 ∧ in_int64 8 ∧ 5 ≤ 8 ∧
  iterates (Cache mixed) mixed_order ∧
  iterates (Cache (ClearByTTL 5 mixed_order mixed)) last_order ∧
  ClearByTTL 8 last_order (ClearByTTL 5 mixed_order mixed)
    = ClearByTTL 8 mixed_order mixed.
Proof.
  assert (H5 : in_int64 5) by (by vm_compute).
  assert (H8 : in_int64 8) by (by vm_compute).
  assert (Hle : 5 ≤ 8) by discriminate.
  assert (Ho : iterates (Cache mixed) mixed_order)
    by (unfold iterates, mixed_order; reflexivity).
  assert (Hl : iterates (Cache (ClearByTTL 5 mixed_order mixed)) last_order)
    by (unfold iterates, last_order; reflexivity).
  split; [exact timed_mixed |]. split; [exact H5 |]. split; [exact H8 |].
  split; [exact Hle |]. split; [exact Ho |]. split; [exact Hl |].
  exact (ClearByTTL_twice 5 8 mixed_order last_order mixed_order mixed
           timed_mixed H5 H8 Hle Ho Hl Ho).
Defined.

Lemma ClearByTTL_unseen_by_Get_witness :
  timed mixed ∧ in_int64 8 ∧ in_int64 9 ∧ 8 ≤ 9 ∧
  iterates (Cache mixed) mixed_order ∧
  (Get "b" 9 (ClearByTTL 8 mixed_order mixed)).1 = (Get "b" 9 mixed).1.
Proof.
  assert (H8 : in_int64 8) by (by vm_compute).
  assert (H9 : in_int64 9) by (by vm_compute).
  assert (Hle : 8 ≤ 9) by discriminate.
  assert (Ho : iterates (Cache mixed) mixed_order)
    by (unfold iterates, mixed_order; reflexivity).
  split; [exact timed_mixed |]. split; [exact H8 |]. split; [exact H9 |].
  split; [exact Hle |]. split; [exact Ho |].
  exact (ClearByTTL_unseen_by_Get "b" 8 9 mixed_order mixed
           timed_mixed H8 H9 Hle Ho).
Defined.

Lemma lru_unique_oldest_witness :
  iterates (Cache two_ab) order_ab ∧
  Cache two_ab !! "a" = Some entry_a ∧ LastAccess entry_a < 4 ∧
  Cache (lru 4 order_ab two_ab) = delete "a" (Cache two_ab).
Proof.
  assert (Hit : iterates (Cache two_ab) order_ab)
    by (unfold iterates; vm_compute; reflexivity).
  assert (Hk : Cache two_ab !! "a" = Some entry_a) by reflexivity.
  assert (Hold : LastAccess entry_a < 4) by reflexivity.
  assert (Huniq : ∀ k' v', k' ≠ "a" → Cache two_ab !! k' = Some v' →
            LastAccess entry_a < LastAccess v').
  { intros k' v' Hne Hk'.
    apply (bool_decide_unpack
             (map_Forall (λ k v, k ≠ "a" → LastAccess entry_a < LastAccess v)
                (Cache two_ab))) with k'; [by vm_compute | done | done]. }
  split; [exact Hit |]. split; [exact Hk |]. split; [exact Hold |].
  exact (proj1 (lru_unique_oldest 4 order_ab two_ab "a" entry_a
                  Hit Hk Hold Huniq)).
Defined.

Lemma Hits_plus_Misses_counts_Gets_witness :
  gets short_trace ≤ max_int64 ∧
  Hits (Stats (run short_trace (NewCacheManager 2 10 1)))
  + Misses (Stats (run short_trace (NewCacheManager 2 10 1)))
  = gets short_trace.
Proof.
  assert (Hfit : gets short_trace ≤ max_int64) by (by vm_compute).
  split; [exact Hfit |].
  exact (Hits_plus_Misses_counts_Gets 2 10 1 short_trace Hfit).
Defined.

Lemma fill_within_capacity_never_evicts_witness :
  Forall (λ op, is_store op = true) two_stores ∧
  Z.of_nat (size (dom (Cache two) ∪ stored two_stores)) ≤ Capacity two ∧
  Stats (run two_stores two) = Stats two.
Proof.
  assert (Hall : Forall (λ op, is_store op = true) two_stores)
    by (repeat constructor).
  assert (Hroom : Z.of_nat (size (dom (Cache two) ∪ stored two_stores))
                  ≤ Capacity two) by (by vm_compute).
  split; [exact Hall |]. split; [exact Hroom |].
  exact (proj1 (fill_within_capacity_never_evicts two_stores two Hall Hroom)).
Defined.

Lemma over_capacity_never_evicts_witness :
  Forall (λ op, is_store op = true) third_store ∧
  Capacity one_ab < len (Cache one_ab) ∧
  Stats (run third_store one_ab) = Stats one_ab.
Proof.
  assert (Hall : Forall (λ op, is_store op = true) third_store)
    by (repeat constructor).
  assert (Hover : Capacity one_ab < len (Cache one_ab)) by reflexivity.
  split; [exact Hall |]. split; [exact Hover |].
  exact (proj1 (over_capacity_never_evicts third_store one_ab Hall Hover)).
Defined.

Lemma StartCleanup_is_last_sweep_witness :
  0 < CleanupTick mixed ∧ timed mixed ∧ in_int64 8 ∧
  ticks_ok mixed (early_ticks ++ [(8, last_order)]) ∧
  Forall (λ tick, in_int64 tick.1 ∧ tick.1 ≤ 8) early_ticks ∧
  StartCleanup
    (ticking_signals (early_ticks ++ [(8, last_order)]) ++ Done :: late) mixed
  = Some (ClearByTTL 8 (map_to_list (Cache mixed)) mixed).
Proof.
  assert (Hpos : 0 < CleanupTick mixed) by reflexivity.
  assert (H8 : in_int64 8) by (by vm_compute).
  assert (Hok : ticks_ok mixed (early_ticks ++ [(8, last_order)])).
  { unfold early_ticks. cbn [ticks_ok app].
    split; [unfold iterates, mixed_order; reflexivity |].
    split; [unfold iterates, last_order; reflexivity | exact I]. }
  assert (Hall : Forall (λ tick, in_int64 tick.1 ∧ tick.1 ≤ 8) early_ticks).
  { constructor; [| constructor]. by vm_compute. }
  split; [exact Hpos |]. split; [exact timed_mixed |]. split; [exact H8 |].
  split; [exact Hok |]. split; [exact Hall |].
  exact (StartCleanup_is_last_sweep early_ticks 8 last_order late mixed
           Hpos timed_mixed H8 Hok Hall).
Defined.

Lemma WaitN_below_rate_panics_witness :
  0 ≤ 3 < RateLimiter.Rate limiter ∧ RateLimiter.WaitN_ticker 3 limiter = None.
Proof.
  assert (Hn : 0 ≤ 3 < RateLimiter.Rate limiter) by (by vm_compute).
  split; [exact Hn |]. exact (WaitN_below_rate_panics 3 limiter Hn).
Defined.

Lemma Allow_burst_witness :
  in_int64 (RateLimiter.CurrentTokensNum limiter + 0) ∧
  in_int64 (RateLimiter.Capacity limiter) ∧
  Forall (λ call, call.1 = 0) five_more ∧
  (RateLimiter.Allows ((0, 0) :: five_more) limiter).1
  = [true; true; true; true; true; false].
Proof.
  assert (H1 : in_int64 (RateLimiter.CurrentTokensNum limiter + 0))
    by (by vm_compute).
  assert (H2 : in_int64 (RateLimiter.Capacity limiter)) by (by vm_compute).
  assert (H3 : Forall (λ call, call.1 = 0) five_more)
    by (repeat constructor).
  split; [exact H1 |]. split; [exact H2 |]. split; [exact H3 |].
  exact (Allow_burst 0 0 five_more limiter H1 H2 H3).
Defined.

Lemma lru_first_oldest_wins_witness :
  LastAccess tied_a < 5 ∧
  Forall (λ kv : string * CacheValue Z, LastAccess tied_a < LastAccess kv.2) [] ∧
  Forall (λ kv, LastAccess tied_a ≤ LastAccess kv.2) [("b", tied_b)] ∧
  Cache (lru 5 ([] ++ ("a", tied_a) :: [("b", tied_b)]) tied)
    = delete "a" (Cache tied).
Proof.
  assert (H1 : LastAccess tied_a < 5) by reflexivity.
  assert (H2 : Forall (λ kv : string * CacheValue Z,
                         LastAccess tied_a < LastAccess kv.2) [])
    by constructor.
  assert (H3 : Forall (λ kv, LastAccess tied_a ≤ LastAccess kv.2)
                 [("b", tied_b)])
    by (constructor; [discriminate | constructor]).
  split; [exact H1 |]. split; [exact H2 |]. split; [exact H3 |].
  exact (lru_first_oldest_wins 5 [] [("b", tied_b)] "a" tied_a tied H1 H2 H3).
Defined.
